(** * A7 edge: asset request expansion

    A shallow embedding of [src/edge/src/helpers/String.ts] and
    [src/edge/src/actions/expand.ts].

    - [JSString] models the two string helpers ([hash], [localeCompare])
      over sequences of UTF-16 code units.
    - [Expand] models the request expansion ([findBestMatchingCandidate],
      [computeUriPath], [assetDefaultPath], [expand], [handleNotFound],
      [redirectOrResolve]) as a state-and-exception monad over the request
      object and a store of arrays.  The classes and helpers that
      [expand.ts] imports from other files are parameters of a section.
      The terminal calls [r.return] and [r.internalRedirect] are recorded
      in the order they are made, and are taken not to throw.
    - [SpecModel] instantiates those parameters from the prose of the
      specification, to run the model on concrete requests. *)

From stdpp Require Import base option list gmap strings.
From Stdlib Require Import ZArith Lia Ascii DecimalString DecimalPos DecimalZ Sorted.

(* ===================================================================== *)
(** * helpers/String.ts *)
(* ===================================================================== *)

Module JSString.

#[local] Open Scope Z_scope.

(** A JavaScript string: its sequence of UTF-16 code units
    (what [charCodeAt] reads). *)
Definition jsstring := list Z.

(** [s.charCodeAt(i)] for [i] inside the string (the loops below never
    leave it; outside JavaScript gives NaN, here 0). *)
Definition charCodeAt (s : jsstring) (i : nat) : Z := nth i s 0.

(** A well-formed string holds code units only. *)
Definition code_units (s : jsstring) : Prop := Forall (fun c => 0 <= c < 65536) s.

(** ECMAScript ToInt32: reduce modulo 2^32, then read as two's complement. *)
Definition ToInt32 (x : Z) : Z :=
  let int32bit := x mod 2 ^ 32 in
  if 2 ^ 31 <=? int32bit then int32bit - 2 ^ 32 else int32bit.

(** [x << n] on numbers: both operands through ToInt32/ToUint32, the shift
    count masked to five bits, the result through ToInt32. *)
Definition shl (x n : Z) : Z := ToInt32 (Z.shiftl (ToInt32 x) (Z.land n 31)).

(** [x | y] on numbers. *)
Definition bor (x y : Z) : Z := ToInt32 (Z.lor (ToInt32 x) (ToInt32 y)).

(** [Number.prototype.toString] on an integer: decimal digits, a leading
    minus sign for negatives. *)
Definition toString (x : Z) : string := NilZero.string_of_int (Z.to_int x).

(** The body of the [for] loop of [hash]: [n] iterations are left, [i] is
    the loop index. *)
Fixpoint hash_loop (input : jsstring) (n : nat) (i : nat) (resultHash : Z) : Z :=
  match n with
  | O => resultHash
  | S n' =>
      let currentCharCode := charCodeAt input i in
      let resultHash := shl resultHash 5 - resultHash + currentCharCode in
      let resultHash := bor resultHash 0 in
      hash_loop input n' (S i) resultHash
  end.

Definition hash (input : jsstring) : string :=
  toString (hash_loop input (length input) 0 0).

(** The [for] loop of [localeCompare]: [Some r] when the loop body
    returned [r], [None] when the loop ran to its end. *)
Fixpoint localeCompare_loop (str1 str2 : jsstring) (n : nat) (i : nat) : option Z :=
  match n with
  | O => None
  | S n' =>
      let char1 := charCodeAt str1 i in
      let char2 := charCodeAt str2 i in
      if char1 <? char2 then Some (-1)
      else if char1 >? char2 then Some 1
      else localeCompare_loop str1 str2 n' (S i)
  end.

Definition localeCompare (str1 str2 : option jsstring) : Z :=
  match str1, str2 with
  | None, None => 0
  | None, Some _ => 1
  | Some _, None => -1
  | Some str1, Some str2 =>
      let minLength := Nat.min (length str1) (length str2) in
      match localeCompare_loop str1 str2 minLength 0 with
      | Some r => r
      | None =>
          if (length str1 <? length str2)%nat then -1
          else if (length str2 <? length str1)%nat then 1
          else 0
      end
  end.

(** ** Reference definitions, written from the prose of the claims *)

(** Wrap an integer modulo 2^32 into the signed range. *)
Definition wrap_signed32 (x : Z) : Z := (x + 2 ^ 31) mod 2 ^ 32 - 2 ^ 31.

(** The fold h' = 32*h - h + c, wrapped, from 0. *)
Definition hash_fold (input : jsstring) : Z :=
  fold_left (fun h c => wrap_signed32 (32 * h - h + c)) input 0.

(** The polynomial sum of the code units with multiplier 31, unwrapped:
    charCode_0 * 31^(n-1) + ... + charCode_(n-1). *)
Definition polynomial (input : jsstring) : Z :=
  fold_left (fun h c => 31 * h + c) input 0.

(** Lexicographic comparison of code units, a proper prefix first. *)
Fixpoint lex_compare (s1 s2 : jsstring) : comparison :=
  match s1, s2 with
  | [], [] => Eq
  | [], _ :: _ => Lt
  | _ :: _, [] => Gt
  | a :: s1', b :: s2' =>
      match a ?= b with
      | Eq => lex_compare s1' s2'
      | c => c
      end
  end.

Definition sign_of (c : comparison) : Z :=
  match c with Lt => -1 | Eq => 0 | Gt => 1 end.

(** "At most": the order [localeCompare] induces on optional strings. *)
Definition lc_le (a b : option jsstring) : Prop := localeCompare a b <= 0.

(** The code units of an ASCII text. *)
Definition of_ascii (s : string) : jsstring :=
  List.map (fun c => Z.of_nat (Ascii.nat_of_ascii c)) (String.list_ascii_of_string s).

(** ** ToInt32 and the shift *)

Lemma ToInt32_wrap x : ToInt32 x = wrap_signed32 x.
Proof.
  unfold ToInt32, wrap_signed32. cbv zeta.
  destruct (Z.leb_spec (2 ^ 31) (x mod 2 ^ 32)) as [H|H].
  - replace (x + 2 ^ 31) with (x mod 2 ^ 32 - 2 ^ 31 + (x / 2 ^ 32 + 1) * 2 ^ 32).
    + rewrite Z.mod_add by lia.
      rewrite (Z.mod_small (x mod 2 ^ 32 - 2 ^ 31)); [lia|].
      pose proof (Z.mod_pos_bound x (2 ^ 32)). lia.
    + pose proof (Z.div_mod x (2 ^ 32)). lia.
  - replace (x + 2 ^ 31) with (x mod 2 ^ 32 + 2 ^ 31 + (x / 2 ^ 32) * 2 ^ 32).
    + rewrite Z.mod_add by lia.
      rewrite (Z.mod_small (x mod 2 ^ 32 + 2 ^ 31)); [lia|].
      pose proof (Z.mod_pos_bound x (2 ^ 32)). lia.
    + pose proof (Z.div_mod x (2 ^ 32)). lia.
Qed.

Lemma wrap_signed32_range x : - 2 ^ 31 <= wrap_signed32 x < 2 ^ 31.
Proof.
  unfold wrap_signed32.
  pose proof (Z.mod_pos_bound (x + 2 ^ 31) (2 ^ 32)). lia.
Qed.

Lemma wrap_signed32_small x : - 2 ^ 31 <= x < 2 ^ 31 -> wrap_signed32 x = x.
Proof. intros H. unfold wrap_signed32. rewrite Z.mod_small; lia. Qed.

(** Wrapping is a congruence modulo 2^32. *)
Lemma wrap_signed32_congr x y :
  (x - y) mod 2 ^ 32 = 0 -> wrap_signed32 x = wrap_signed32 y.
Proof.
  intros H. unfold wrap_signed32.
  apply Z.mod_divide in H; [|lia]. destruct H as [k Hk].
  replace (x + 2 ^ 31) with (y + 2 ^ 31 + k * 2 ^ 32) by lia.
  now rewrite Z.mod_add by lia.
Qed.

Lemma wrap_signed32_diff x : exists k, wrap_signed32 x = x + k * 2 ^ 32.
Proof.
  unfold wrap_signed32. exists (- ((x + 2 ^ 31) / 2 ^ 32)).
  pose proof (Z.div_mod (x + 2 ^ 31) (2 ^ 32)). lia.
Qed.

(** One turn of the loop is one step of the fold. *)
Lemma hash_step h c :
  bor (shl h 5 - h + c) 0 = wrap_signed32 (32 * h - h + c).
Proof.
  unfold bor, shl.
  replace (Z.land 5 31) with 5 by reflexivity.
  replace (ToInt32 0) with 0 by reflexivity.
  rewrite Z.lor_0_r, !ToInt32_wrap.
  rewrite (wrap_signed32_small (wrap_signed32 _)) by apply wrap_signed32_range.
  rewrite Z.shiftl_mul_pow2 by lia.
  apply wrap_signed32_congr.
  destruct (wrap_signed32_diff h) as [k1 Hk1].
  destruct (wrap_signed32_diff (wrap_signed32 h * 2 ^ 5)) as [k2 Hk2].
  rewrite Hk2, Hk1.
  replace (_ - _) with ((32 * k1 + k2) * 2 ^ 32) by lia.
  apply Z.mod_mul. lia.
Qed.

Lemma hash_loop_shift a input n i h :
  hash_loop (a :: input) n (S i) h = hash_loop input n i h.
Proof. revert i h. induction n as [|n IH]; intros i h; simpl; [reflexivity|]. now rewrite IH. Qed.

Lemma hash_loop_fold input h :
  hash_loop input (length input) 0 h
  = fold_left (fun h c => wrap_signed32 (32 * h - h + c)) input h.
Proof.
  revert h. induction input as [|a input IH]; intros h; [reflexivity|].
  cbn [length hash_loop fold_left]. cbv zeta.
  rewrite hash_loop_shift, hash_step. unfold charCodeAt. cbn [nth]. apply IH.
Qed.

Lemma hash_fold_range input : - 2 ^ 31 <= hash_fold input < 2 ^ 31.
Proof.
  unfold hash_fold.
  assert (H : forall h, - 2 ^ 31 <= h < 2 ^ 31 ->
            - 2 ^ 31 <= fold_left (fun h c => wrap_signed32 (32 * h - h + c)) input h < 2 ^ 31).
  { induction input as [|a input IH]; intros h Hh; [exact Hh|].
    cbn [fold_left]. apply IH, wrap_signed32_range. }
  apply H. lia.
Qed.

(** On code units every intermediate value of the loop is an integer below
    2^53 in magnitude, so the double-precision arithmetic of the source is
    exact and integer arithmetic models it. *)
Lemma hash_step_exact h c :
  - 2 ^ 31 <= h < 2 ^ 31 -> 0 <= c < 65536 ->
  - 2 ^ 53 < shl h 5 - h + c < 2 ^ 53.
Proof.
  intros Hh Hc. unfold shl. rewrite ToInt32_wrap.
  pose proof (wrap_signed32_range (Z.shiftl (ToInt32 h) (Z.land 5 31))). lia.
Qed.

Lemma hash_turn_exact input i h :
  code_units input -> (i < length input)%nat -> - 2 ^ 31 <= h < 2 ^ 31 ->
  - 2 ^ 53 < shl h 5 - h + charCodeAt input i < 2 ^ 53
  /\ - 2 ^ 31 <= bor (shl h 5 - h + charCodeAt input i) 0 < 2 ^ 31.
Proof.
  intros Hin Hi Hh. split.
  - apply hash_step_exact; [exact Hh|].
    unfold charCodeAt. now apply (proj1 (List.Forall_nth _ input) Hin).
  - rewrite hash_step. apply wrap_signed32_range.
Qed.

(** ** The loop of localeCompare against the lexicographic order *)

Lemma localeCompare_loop_shift a b s1 s2 n i :
  localeCompare_loop (a :: s1) (b :: s2) n (S i) = localeCompare_loop s1 s2 n i.
Proof.
  revert i. induction n as [|n IH]; intros i; [reflexivity|].
  cbn [localeCompare_loop]. cbv zeta. unfold charCodeAt. cbn [nth].
  now rewrite IH.
Qed.

Lemma localeCompare_lex s1 s2 :
  localeCompare (Some s1) (Some s2) = sign_of (lex_compare s1 s2).
Proof.
  revert s2. induction s1 as [|a s1 IH]; intros [|b s2]; try reflexivity.
  specialize (IH s2). unfold localeCompare in *.
  cbn [length Nat.min localeCompare_loop lex_compare]. cbv zeta.
  unfold charCodeAt at 1 2 3 4. cbn [nth].
  rewrite localeCompare_loop_shift.
  destruct (Z.compare_spec a b) as [Hab|Hab|Hab].
  - subst b. rewrite Z.gtb_ltb, Z.ltb_irrefl. exact IH.
  - apply Z.ltb_lt in Hab. now rewrite Hab.
  - assert ((a <? b) = false) as -> by (apply Z.ltb_ge; lia).
    assert ((a >? b) = true) as -> by (rewrite Z.gtb_ltb; apply Z.ltb_lt; lia).
    reflexivity.
Qed.

Lemma lex_compare_antisym s1 s2 : lex_compare s2 s1 = CompOpp (lex_compare s1 s2).
Proof.
  revert s2. induction s1 as [|a s1 IH]; intros [|b s2]; try reflexivity.
  cbn [lex_compare]. rewrite (Z.compare_antisym a b).
  destruct (a ?= b); cbn [CompOpp]; auto.
Qed.

Lemma lex_compare_eq s1 s2 : lex_compare s1 s2 = Eq <-> s1 = s2.
Proof.
  revert s2. induction s1 as [|a s1 IH]; intros [|b s2]; cbn [lex_compare];
    try (split; [discriminate | discriminate]); [tauto|].
  destruct (Z.compare_spec a b) as [Hab|Hab|Hab].
  - subst b. rewrite IH. split; [intros ->; reflexivity | intros [= ->]; reflexivity].
  - split; [discriminate | intros [= -> _]; lia].
  - split; [discriminate | intros [= -> _]; lia].
Qed.

Lemma lex_compare_trans_lt s1 s2 s3 :
  lex_compare s1 s2 = Lt -> lex_compare s2 s3 = Lt -> lex_compare s1 s3 = Lt.
Proof.
  revert s2 s3. induction s1 as [|a s1 IH]; intros [|b s2] [|c s3]; cbn [lex_compare];
    try discriminate; try reflexivity.
  destruct (Z.compare_spec a b) as [Hab|Hab|Hab]; try discriminate;
    destruct (Z.compare_spec b c) as [Hbc|Hbc|Hbc]; try discriminate; intros H1 H2.
  - subst. rewrite Z.compare_refl. eauto.
  - subst. now apply Z.compare_lt_iff in Hbc as ->.
  - subst. now apply Z.compare_lt_iff in Hab as ->.
  - assert (a < c) as Hac by lia. now apply Z.compare_lt_iff in Hac as ->.
Qed.

Lemma sign_of_values c : sign_of c = -1 \/ sign_of c = 0 \/ sign_of c = 1.
Proof. destruct c; cbn; auto. Qed.

Lemma localeCompare_values a b :
  localeCompare a b = -1 \/ localeCompare a b = 0 \/ localeCompare a b = 1.
Proof.
  destruct a as [s1|], b as [s2|]; cbn [localeCompare]; auto.
  change (localeCompare (Some s1) (Some s2) = -1 \/
          localeCompare (Some s1) (Some s2) = 0 \/ localeCompare (Some s1) (Some s2) = 1).
  rewrite localeCompare_lex. apply sign_of_values.
Qed.

Lemma localeCompare_antisym a b : localeCompare b a = - localeCompare a b.
Proof.
  destruct a as [s1|], b as [s2|]; try reflexivity.
  rewrite !localeCompare_lex, lex_compare_antisym.
  destruct (lex_compare s1 s2); reflexivity.
Qed.

Lemma localeCompare_zero a b : localeCompare a b = 0 <-> a = b.
Proof.
  destruct a as [s1|], b as [s2|]; try (cbn; split; [lia | discriminate]); [|tauto].
  rewrite localeCompare_lex.
  split.
  - intros H. f_equal. apply lex_compare_eq.
    destruct (lex_compare s1 s2); cbn in H; [reflexivity|lia|lia].
  - intros [= ->]. assert (lex_compare s2 s2 = Eq) as -> by now apply lex_compare_eq. reflexivity.
Qed.

Lemma lc_le_trans a b c : lc_le a b -> lc_le b c -> lc_le a c.
Proof.
  unfold lc_le.
  destruct a as [s1|], b as [s2|], c as [s3|]; cbn [localeCompare]; try lia.
  change (localeCompare (Some s1) (Some s2) <= 0 -> localeCompare (Some s2) (Some s3) <= 0 ->
          localeCompare (Some s1) (Some s3) <= 0).
  rewrite !localeCompare_lex.
  destruct (lex_compare s1 s2) eqn:E12; cbn [sign_of]; try lia;
    destruct (lex_compare s2 s3) eqn:E23; cbn [sign_of]; try lia; intros _ _.
  - apply lex_compare_eq in E12, E23. subst.
    assert (lex_compare s3 s3 = Eq) as -> by now apply lex_compare_eq. cbn. lia.
  - apply lex_compare_eq in E12. subst. rewrite E23. cbn. lia.
  - apply lex_compare_eq in E23. subst. rewrite E12. cbn. lia.
  - rewrite (lex_compare_trans_lt _ _ _ E12 E23). cbn. lia.
Qed.

(** C10: [hash] returns the decimal text of the signed 32-bit integer
    obtained by folding h' = wrap(32*h - h + charCode) over the code units
    from 0; the value lies in the signed 32-bit range; equal inputs give
    equal outputs; and the hash of the empty string is "0". *)
Theorem hash_is_wrapped_fold (input : jsstring) :
  hash input = toString (hash_fold input)
  /\ - 2 ^ 31 <= hash_fold input < 2 ^ 31
  /\ (forall input', input' = input -> hash input' = hash input)
  /\ hash [] = "0"%string.
Proof.
  split; [|split; [|split]].
  - unfold hash, hash_fold. now rewrite hash_loop_fold.
  - apply hash_fold_range.
  - now intros ? ->.
  - reflexivity.
Qed.

(** C9: [localeCompare] returns only -1, 0 or 1; it returns 0 exactly on
    equal arguments (equal strings, or both undefined); undefined is greater
    than every string; on two strings it is the lexicographic comparison of
    code units, a proper prefix first; swapping the arguments negates the
    result; and "at most" is reflexive, antisymmetric, transitive and
    total. *)
Theorem localeCompare_total_order :
  (forall a b, localeCompare a b = -1 \/ localeCompare a b = 0 \/ localeCompare a b = 1)
  /\ (forall a b, localeCompare a b = 0 <-> a = b)
  /\ (forall s, localeCompare None (Some s) = 1 /\ localeCompare (Some s) None = -1)
  /\ (forall s1 s2, localeCompare (Some s1) (Some s2) = sign_of (lex_compare s1 s2))
  /\ (forall a b, localeCompare b a = - localeCompare a b)
  /\ (forall a, lc_le a a)
  /\ (forall a b, lc_le a b -> lc_le b a -> a = b)
  /\ (forall a b c, lc_le a b -> lc_le b c -> lc_le a c)
  /\ (forall a b, lc_le a b \/ lc_le b a).
Proof.
  repeat split.
  - apply localeCompare_values.
  - apply localeCompare_zero.
  - intros ->. now apply localeCompare_zero.
  - apply localeCompare_lex.
  - apply localeCompare_antisym.
  - intros a. unfold lc_le.
    assert (localeCompare a a = 0) as -> by now apply localeCompare_zero. lia.
  - intros a b. unfold lc_le. rewrite (localeCompare_antisym a b). intros H1 H2.
    apply localeCompare_zero. lia.
  - apply lc_le_trans.
  - intros a b. unfold lc_le. rewrite (localeCompare_antisym a b). lia.
Qed.

(** ** Values on concrete strings *)

Example hash_abc : hash (of_ascii "abc") = "96354"%string.
Proof. vm_compute. reflexivity. Qed.

(** A fold that leaves the signed 32-bit range and wraps to a negative value. *)
Example hash_wraps :
  hash (of_ascii "dist/index.css") = "-1541974594"%string
  /\ hash_fold (of_ascii "dist/index.css") = -1541974594.
Proof. split; vm_compute; reflexivity. Qed.

Example localeCompare_examples :
  localeCompare (Some (of_ascii "1.10")) (Some (of_ascii "1.9")) = -1
  /\ localeCompare (Some (of_ascii "beta")) (Some (of_ascii "alpha")) = 1
  /\ localeCompare (Some (of_ascii "rc")) (Some (of_ascii "rc1")) = -1
  /\ localeCompare (Some (of_ascii "rc")) (Some (of_ascii "rc")) = 0
  /\ localeCompare None (Some (of_ascii "rc")) = 1
  /\ localeCompare (Some []) None = -1.
Proof. repeat split. Qed.

(** ** More on [hash] and [localeCompare] *)

Lemma wrap_signed32_eq x y :
  wrap_signed32 x = wrap_signed32 y <-> (x - y) mod 2 ^ 32 = 0.
Proof.
  split; [|apply wrap_signed32_congr].
  intros H. destruct (wrap_signed32_diff x) as [k1 H1].
  destruct (wrap_signed32_diff y) as [k2 H2].
  replace (x - y) with ((k2 - k1) * 2 ^ 32) by lia. apply Z.mod_mul. lia.
Qed.

Lemma polynomial_fold input p :
  fold_left (fun h c => wrap_signed32 (32 * h - h + c)) input (wrap_signed32 p)
  = wrap_signed32 (fold_left (fun h c => 31 * h + c) input p).
Proof.
  revert p. induction input as [|c input IH]; intros p; [reflexivity|].
  cbn [fold_left]. rewrite <- IH. f_equal. apply wrap_signed32_congr.
  destruct (wrap_signed32_diff p) as [k Hk]. rewrite Hk.
  replace (_ - _) with (31 * k * 2 ^ 32) by lia. apply Z.mod_mul. lia.
Qed.

Lemma hash_fold_polynomial input : hash_fold input = wrap_signed32 (polynomial input).
Proof. unfold hash_fold, polynomial. rewrite <- polynomial_fold. reflexivity. Qed.

(** The decimal text of an integer determines it. *)
Lemma toString_inj x y : toString x = toString y -> x = y.
Proof.
  unfold toString. intros H. apply DecimalZ.to_int_inj.
  assert (Hnil : forall z, Z.to_int z <> Decimal.Pos Decimal.Nil
                           /\ Z.to_int z <> Decimal.Neg Decimal.Nil).
  { intros [|p|p]; cbn; split; try discriminate; intros [= Hp];
      exact (DecimalPos.Unsigned.to_uint_nonnil p Hp). }
  destruct (Hnil x) as [Hx1 Hx2]. destruct (Hnil y) as [Hy1 Hy2].
  pose proof (NilZero.isi (Z.to_int x) Hx1 Hx2) as Ex.
  pose proof (NilZero.isi (Z.to_int y) Hy1 Hy2) as Ey.
  rewrite H in Ex. congruence.
Qed.

Lemma lex_compare_prefix p a b : lex_compare (p ++ a) (p ++ b) = lex_compare a b.
Proof.
  induction p as [|x p IH]; [reflexivity|].
  cbn [app lex_compare]. now rewrite Z.compare_refl.
Qed.

(** X14: [hash] is the polynomial hash with multiplier 31: the decimal text
    of the sum of charCode_i * 31^(n-1-i), computed without any wrapping
    and wrapped once into the signed 32-bit range at the end. *)
Theorem hash_polynomial (input : jsstring) :
  hash input = toString (wrap_signed32 (polynomial input))
  /\ forall c, polynomial (input ++ [c]) = 31 * polynomial input + c.
Proof.
  split.
  - unfold hash. now rewrite hash_loop_fold, <- hash_fold_polynomial.
  - intros c. unfold polynomial. now rewrite fold_left_app.
Qed.

(** X15: two strings have the same [hash] exactly when their polynomial
    sums differ by a multiple of 2^32: the conversion to text loses
    nothing, and only the wrap-around makes strings collide. *)
Theorem hash_collision (a b : jsstring) :
  hash a = hash b <-> (polynomial a - polynomial b) mod 2 ^ 32 = 0.
Proof.
  unfold hash. rewrite !hash_loop_fold. fold (hash_fold a) (hash_fold b).
  rewrite !hash_fold_polynomial, <- wrap_signed32_eq.
  split; [apply toString_inj | now intros ->].
Qed.

(** X16: a common prefix does not change what [localeCompare] returns. *)
Theorem localeCompare_common_prefix (p a b : jsstring) :
  localeCompare (Some (p ++ a)) (Some (p ++ b)) = localeCompare (Some a) (Some b).
Proof. now rewrite !localeCompare_lex, lex_compare_prefix. Qed.

(** X17: [localeCompare] puts a string before each of its proper
    extensions and level with itself; the empty string is at most every
    argument, and undefined is at least every argument. *)
Theorem localeCompare_extension (s t : jsstring) :
  localeCompare (Some s) (Some (s ++ t)) = match t with [] => 0 | _ :: _ => -1 end
  /\ (forall a, localeCompare (Some []) a <= 0)
  /\ (forall a, localeCompare a None <= 0).
Proof.
  split; [|split].
  - rewrite <- (app_nil_r s) at 1. rewrite !localeCompare_lex, lex_compare_prefix.
    destruct t; reflexivity.
  - intros [[|c a]|]; cbn; lia.
  - intros [a|]; cbn; lia.
Qed.

End JSString.

(* ===================================================================== *)
(** * actions/expand.ts *)
(* ===================================================================== *)

Module Expand.

#[local] Open Scope string_scope.

(** ** JavaScript values used by the module *)

(** Truthiness of a string, and of a value of type [string | undefined]. *)
Definition truthy_string (s : string) : bool := negb (String.eqb s "").

Definition truthy (v : option string) : bool :=
  match v with
  | Some s => truthy_string s
  | None => false
  end.

(** A value of type [string | undefined] inside a template literal. *)
Definition interpolate (v : option string) : string :=
  match v with
  | Some s => s
  | None => "undefined"
  end.

(** [a || b] on strings. *)
Definition or_else (v : option string) (b : string) : string :=
  if truthy v then interpolate v else b.

(** [s] ends with [suffix] (a regular expression anchored by [$]). *)
Definition endsWith (s suffix : string) : bool :=
  let n := String.length s in
  let k := String.length suffix in
  (k <=? n)%nat && String.eqb (String.substring (n - k) k s) suffix.

(** What a [throw] carries. *)
Inductive exn : Type :=
  | TypeError (msg : string)
  | Failure (msg : string).

(** An entry of the catalog, as [allStoredAssets] lists it. *)
Module StoredAsset.
Record t : Type := mk { name : string; defaultPath : option string }.
End StoredAsset.

(** References to arrays. *)
Definition loc := positive.

(** The terminal calls on the request object, in [r.return(status, body)]
    and [r.internalRedirect(uri)]. *)
Inductive Action : Type :=
  | Return (status : Z) (body : option string)
  | InternalRedirect (uri : string).

Inductive Level : Type := LogLevel | WarnLevel | ErrorLevel.

(** Sorting as [Array.prototype.sort] with a comparator does it: [a] stays
    before [b] unless the comparator says [b] comes first (a positive
    result); elements that compare equal keep their order. *)
Section sort.
Context {A : Type} (cmp : A -> A -> Z).

Fixpoint sort_insert (x : A) (l : list A) : list A :=
  match l with
  | [] => [x]
  | y :: l' => if (cmp x y <=? 0)%Z then x :: l else y :: sort_insert x l'
  end.

Definition sort (l : list A) : list A := foldr sort_insert [] l.

(** [cmp] orders consistently: any two elements are comparable, and
    "not after" is transitive. *)
Definition consistent : Prop :=
  (forall a b, cmp a b <= 0 \/ cmp b a <= 0)%Z
  /\ (forall a b c, cmp a b <= 0 -> cmp b c <= 0 -> cmp a c <= 0)%Z.

End sort.

(** A callback that may throw, run over every element in order
    ([Array.prototype.map]). *)
Fixpoint mapM {A B : Type} (f : A -> exn + B) (xs : list A) : exn + list B :=
  match xs with
  | [] => inr []
  | x :: xs' =>
      match f x with
      | inl e => inl e
      | inr y =>
          match mapM f xs' with
          | inl e => inl e
          | inr ys => inr (y :: ys)
          end
      end
  end.

Section expand.

(** *** What [expand.ts] imports *)

(** [assets/Asset]: the fields the module reads. *)
Context {Asset : Type}.
Variable name : Asset -> string.
Variable version : Asset -> option string.
Variable path : Asset -> option string.

(** [assets/AssetNameParser]. *)
Variable parseFromUrl : string -> exn + Asset.
Variable parseFromStorageName : string -> exn + Asset.
(** [assets/AssetComparator], [assets/AssetPredicate] (built on the
    requested asset), [assets/AssetNameSerializer] (its argument may be
    undefined: [findBestMatchingCandidate] returns nothing on no match). *)
Variable compare : Asset -> Asset -> Z.
Variable matches : Asset -> Asset -> bool.
Variable serializeAssetName : option Asset -> exn + string.
(** [helpers/Version]. *)
Variable isVersionPreciseEnough : Asset -> bool.
(** [datasource/datasource]: a reference to the array of catalog entries. *)
Variable allStoredAssets : exn + loc.
(** [helpers/File], [helpers/Minify], [etag], [helpers/Env]. *)
Variable readFile : string -> exn + option string.
Variable resolveNonMinifiedURI : string -> exn + string.
Variable isJsURI : string -> bool.
Variable isCssURI : string -> bool.
Variable minifyJS : string -> exn + string.
Variable minifyCSS : string -> exn + string.
Variable etag : string -> string.
Variable VOLUME_MOUNT_PATH : string.
(** [process.env]. *)
Variable A7_CORS_ALL : option string.
Variable A7_PATH_AUTO_RESOLVE : option string.

(** *** The request object and the store *)

(** The messages the module logs. *)
Inductive Message : Type :=
  | MsgExpand (uri : string)
  | MsgDebug (isVersionPrecise needsRedirect isURIComplete : bool)
  | MsgFoundBestMatch (bestMatch : Asset)
  | MsgNoBestMatch
  | MsgMinificationRequested
  | MsgInternal404
  | MsgInternalRedirect (path : string)
  | Msg302 (path : string)
  | MsgException (e : exn).

(** An array in the store holds catalog entries, strings or assets. *)
Inductive array : Type :=
  | StoredAssets (l : list StoredAsset.t)
  | Strings (l : list string)
  | Assets (l : list Asset).

(** [NginxHTTPRequest]: what the module reads of it ([uri],
    [variables.serveFiles]) and what it writes ([headersOut], the log, the
    terminal calls in the order they were made). *)
Record NginxHTTPRequest : Type := mkRequest {
  uri : string;
  serveFiles : option string;
  headersOut : gmap string string;
  logged : list (Level * Message);
  sent : list Action
}.

Record State : Type := mkState {
  r : NginxHTTPRequest;
  heap : gmap loc array
}.

(** State and exceptions. *)
Definition M (A : Type) : Type := State -> (exn + A) * State.

Definition ret {A} (x : A) : M A := fun s => (inr x, s).

Definition throw {A} (e : exn) : M A := fun s => (inl e, s).

Definition bind {A B} (m : M A) (k : A -> M B) : M B :=
  fun s =>
    match m s with
    | (inr x, s') => k x s'
    | (inl e, s') => (inl e, s')
    end.

(** [try { m } catch (e) { handler e }]. *)
Definition try_catch {A} (m : M A) (handler : exn -> M A) : M A :=
  fun s =>
    match m s with
    | (inr x, s') => (inr x, s')
    | (inl e, s') => handler e s'
    end.

Definition lift {A} (v : exn + A) : M A := fun s => (v, s).

Definition gets {A} (f : State -> A) : M A := fun s => (inr (f s), s).

Definition modify_r (f : NginxHTTPRequest -> NginxHTTPRequest) : M unit :=
  fun s => (inr tt, mkState (f (r s)) (heap s)).

Definition modify_heap (f : gmap loc array -> gmap loc array) : M unit :=
  fun s => (inr tt, mkState (r s) (f (heap s))).

Notation "'let*' x ':=' m 'in' k" := (bind m (fun x => k))
  (at level 10, x name, m at level 100, k at level 200).
Notation "m ';;;' k" := (bind m (fun _ => k))
  (at level 100, k at level 200, right associativity).

(** [r.log], [r.warn], [r.error]. *)
Definition r_log (lv : Level) (m : Message) : M unit :=
  modify_r (fun q => mkRequest (uri q) (serveFiles q) (headersOut q)
                       (logged q ++ [(lv, m)]) (sent q)).

(** [r.headersOut[k] = v]. *)
Definition r_setHeader (k v : string) : M unit :=
  modify_r (fun q => mkRequest (uri q) (serveFiles q) (<[k := v]> (headersOut q))
                       (logged q) (sent q)).

Definition r_do (a : Action) : M unit :=
  modify_r (fun q => mkRequest (uri q) (serveFiles q) (headersOut q)
                       (logged q) (sent q ++ [a])).

(** [r.return(status, body)] and [r.internalRedirect(uri)]. *)
Definition r_return (status : Z) (body : option string) : M unit := r_do (Return status body).
Definition r_internalRedirect (uri : string) : M unit := r_do (InternalRedirect uri).

(** *** Arrays in the store *)

Definition alloc (a : array) : M loc :=
  fun s =>
    let l := fresh (dom (heap s)) in
    (inr l, mkState (r s) (<[l := a]> (heap s))).

Definition load (l : loc) : M array :=
  fun s =>
    match heap s !! l with
    | Some a => (inr a, s)
    | None => (inl (TypeError "not an array"), s)
    end.

Definition store (l : loc) (a : array) : M unit := modify_heap (<[l := a]>).

Definition the_stored (a : array) : exn + list StoredAsset.t :=
  match a with StoredAssets l => inr l | _ => inl (TypeError "not catalog entries") end.

Definition the_strings (a : array) : exn + list string :=
  match a with Strings l => inr l | _ => inl (TypeError "not strings") end.

Definition the_assets (a : array) : exn + list Asset :=
  match a with Assets l => inr l | _ => inl (TypeError "not assets") end.

(** [xs.map(f)]: a new array. *)
Definition Array_map {A B} (view : array -> exn + list A) (mk : list B -> array)
    (f : A -> exn + B) (l : loc) : M loc :=
  let* a := load l in
  let* xs := lift (view a) in
  let* ys := lift (mapM f xs) in
  alloc (mk ys).

(** [xs.filter(f)] on an array of assets: a new array. *)
Definition Array_filter (f : Asset -> bool) (l : loc) : M loc :=
  let* a := load l in
  let* xs := lift (the_assets a) in
  alloc (Assets (List.filter f xs)).

(** [xs.sort(cmp)] on an array of assets: sorts [xs] itself, and returns it. *)
Definition Array_sort (cmp : Asset -> Asset -> Z) (l : loc) : M loc :=
  let* a := load l in
  let* xs := lift (the_assets a) in
  store l (Assets (sort cmp xs)) ;;;
  ret l.

(** [xs[0]] on an array of assets. *)
Definition Array_first (l : loc) : M (option Asset) :=
  let* a := load l in
  let* xs := lift (the_assets a) in
  ret (head xs).

(** [xs.find(f)] on the catalog. *)
Definition Array_find (f : StoredAsset.t -> bool) (l : loc) : M (option StoredAsset.t) :=
  let* a := load l in
  let* xs := lift (the_stored a) in
  ret (List.find f xs).

(** *** The functions of expand.ts *)

Definition findBestMatchingCandidate (requestedAsset : Asset) : M (option Asset) :=
  let* all := lift allStoredAssets in
  let* names := Array_map the_stored Strings (fun p => inr (StoredAsset.name p)) all in
  let* assets := Array_map the_strings Assets parseFromStorageName names in
  let* eligible := Array_filter (fun p => String.eqb (name p) (name requestedAsset)) assets in
  let* eligibleAssetNamesOrdered := Array_sort compare eligible in
  let* candidates := Array_filter (fun asset => matches requestedAsset asset)
                       eligibleAssetNamesOrdered in
  let* bestMatch := Array_first candidates in
  match bestMatch with
  | Some found =>
      r_log LogLevel (MsgFoundBestMatch found) ;;;
      ret (Some found)
  | None =>
      r_log WarnLevel MsgNoBestMatch ;;;
      ret None
  end.

Definition computeUriPath (requestedAsset : Asset) (candidateAsset : option Asset) : M string :=
  let* assetStorageName := lift (serializeAssetName candidateAsset) in
  let* all := lift allStoredAssets in
  let* found := Array_find (fun p => String.eqb (StoredAsset.name p) assetStorageName) all in
  let defaultPath := found ≫= StoredAsset.defaultPath in
  let hasPath := truthy (path requestedAsset) || truthy defaultPath in
  if negb hasPath then ret ""
  else ret ("/" +:+ assetStorageName +:+
            (if truthy (path requestedAsset) then interpolate (path requestedAsset)
             else "/" +:+ interpolate defaultPath)).

Definition assetDefaultPath (requestedAsset : Asset) : M string :=
  if negb (truthy_string (name requestedAsset)) || negb (truthy (version requestedAsset))
  then ret ""
  else
    let* all := lift allStoredAssets in
    let* found := Array_find (fun p =>
                    String.eqb (StoredAsset.name p)
                      (name requestedAsset +:+ "@" +:+ interpolate (version requestedAsset)))
                    all in
    ret (or_else (found ≫= StoredAsset.defaultPath) "").

Definition handleNotFound : M unit :=
  r_log WarnLevel MsgInternal404 ;;;
  r_internalRedirect "/404.html".

Definition redirectOrResolve (path : string) : M unit :=
  (if truthy A7_CORS_ALL then
     r_setHeader "access-control-allow-origin" "*" ;;;
     r_setHeader "access-control-allow-headers" "*"
   else ret tt) ;;;
  if truthy A7_PATH_AUTO_RESOLVE then
    r_log LogLevel (MsgInternalRedirect path) ;;;
    r_internalRedirect path
  else
    r_log LogLevel (Msg302 path) ;;;
    r_return 302 (Some path).

(** The test [/\.min\.(?:js|mjs|css)$/] on the request's URI. *)
Definition isMinificationRequested (uri : string) : bool :=
  endsWith uri ".min.js" || endsWith uri ".min.mjs" || endsWith uri ".min.css".

(** The branch of [expand] for a complete URI with a minified name. *)
Definition serveMinified (uri : string) : M unit :=
  r_log LogLevel MsgMinificationRequested ;;;
  let* source := try_catch (lift (readFile (VOLUME_MOUNT_PATH +:+ uri)))
                   (fun _ => ret None) in
  if truthy source then r_return 200 source
  else
    let* source := try_catch
                     (let* sourceFilePath := lift (resolveNonMinifiedURI uri) in
                      lift (readFile (VOLUME_MOUNT_PATH +:+ sourceFilePath)))
                     (fun _ => ret source) in
    let minified := or_else source "" in
    let* minified :=
      (if isJsURI uri then lift (minifyJS minified)
       else if isCssURI uri then lift (minifyCSS minified)
       else ret minified) in
    r_setHeader "cache-tag" "minified asset" ;;;
    r_setHeader "etag" (etag minified) ;;;
    r_return 200 (Some minified).

(** The branch of [expand] for a complete URI, on [r.variables.serveFiles]. *)
Definition serveFile (uri : string) : M unit :=
  let* serve := gets (fun s => serveFiles (r s)) in
  if truthy serve then
    let* content := lift (readFile (VOLUME_MOUNT_PATH +:+ uri)) in
    r_return 200 content
  else handleNotFound.

(** The [try] block of [expand]. *)
Definition expand_try (uri : string) : M unit :=
  let* requestedAsset := lift (parseFromUrl uri) in
  let isVersionPrecise := isVersionPreciseEnough requestedAsset in
  let isURIComplete := truthy (path requestedAsset) && isVersionPrecise in
  let needsRedirect := negb isURIComplete in
  r_log LogLevel (MsgDebug isVersionPrecise needsRedirect isURIComplete) ;;;
  if negb needsRedirect then
    (if isMinificationRequested uri then serveMinified uri else ret tt) ;;;
    serveFile uri
  else if negb isVersionPrecise then
    let* candidateAsset := findBestMatchingCandidate requestedAsset in
    let* newPath := computeUriPath requestedAsset candidateAsset in
    if negb (truthy_string newPath) then handleNotFound
    else redirectOrResolve newPath
  else if negb (truthy (path requestedAsset)) then
    let* assetPath := assetDefaultPath requestedAsset in
    if negb (truthy_string assetPath) then handleNotFound
    else
      let newPath := "/" +:+ name requestedAsset +:+ "@" +:+
                     interpolate (version requestedAsset) +:+ "/" +:+ assetPath in
      redirectOrResolve newPath
  else handleNotFound.

(** The [catch] block of [expand]. *)
Definition expand_catch (e : exn) : M unit :=
  r_log ErrorLevel (MsgException e) ;;;
  handleNotFound.

Definition expand : M unit :=
  let* uri := gets (fun s => uri (r s)) in
  r_log LogLevel (MsgExpand uri) ;;;
  try_catch (expand_try uri) expand_catch.

(** ** Definitions for the statements *)

(** The catalog names parsed, those of the request's name kept, sorted by
    the comparator, then filtered by the predicate against the request. *)
Definition candidates (requestedAsset : Asset) (assets : list Asset) : list Asset :=
  List.filter (fun asset => matches requestedAsset asset)
    (sort compare
       (List.filter (fun p => String.eqb (name p) (name requestedAsset)) assets)).

(** The first candidate, or nothing; a storage name whose parsing throws
    aborts the resolution with that exception. *)
Definition resolver (requestedAsset : Asset) (entries : list StoredAsset.t)
  : exn + option Asset :=
  match mapM parseFromStorageName (List.map StoredAsset.name entries) with
  | inl e => inl e
  | inr assets => inr (head (candidates requestedAsset assets))
  end.

(** [s'] is [s] with more log lines and more arrays: the request is
    otherwise as it was, and so is every array [s] had. *)
Definition extends (s s' : State) : Prop :=
  uri (r s') = uri (r s)
  /\ serveFiles (r s') = serveFiles (r s)
  /\ headersOut (r s') = headersOut (r s)
  /\ sent (r s') = sent (r s)
  /\ heap s ⊆ heap s'.

(** The outcome of a request, as the specification names it. *)
Inductive Outcome : Type :=
  | Serve (body : option string)
  | Redirect (target : string)
  | NotFound.

(** The terminal call that answers with an outcome: a redirect is resolved
    internally when [A7_PATH_AUTO_RESOLVE] is set and is a 302 otherwise;
    not found is the internal redirect to the 404 page. *)
Definition answer (o : Outcome) : Action :=
  match o with
  | Serve body => Return 200 body
  | Redirect target =>
      if truthy A7_PATH_AUTO_RESOLVE then InternalRedirect target
      else Return 302 (Some target)
  | NotFound => InternalRedirect "/404.html"
  end.

(** The default path the catalog registers under a storage name. *)
Definition defaultPathOf (storageName : string) (entries : list StoredAsset.t)
  : option string :=
  List.find (fun p => String.eqb (StoredAsset.name p) storageName) entries
    ≫= StoredAsset.defaultPath.

(** The outcome for a request with an imprecise version, given what the
    resolver found: no match is not found; otherwise the target is a slash
    and the serialized match, followed by the request's path, or else by a
    slash and the match's default path; with neither path it is not found.
    (A match that cannot be serialized is not found as well.) *)
Definition imprecise_outcome (requestedAsset : Asset) (found : option Asset)
    (entries : list StoredAsset.t) : Outcome :=
  match found with
  | None => NotFound
  | Some candidate =>
      match serializeAssetName (Some candidate) with
      | inl _ => NotFound
      | inr storageName =>
          if truthy (path requestedAsset) then
            Redirect ("/" +:+ storageName +:+ interpolate (path requestedAsset))
          else
            match defaultPathOf storageName entries with
            | Some defaultPath =>
                if truthy_string defaultPath then
                  Redirect ("/" +:+ storageName +:+ "/" +:+ defaultPath)
                else NotFound
            | None => NotFound
            end
      end
  end.

(** The outcome for a request with a precise version [v] and no path: a
    redirect to [/name@v/defaultPath] when the catalog registers a default
    path for [name@v], not found otherwise. *)
Definition precise_outcome (requestedAsset : Asset) (v : string)
    (entries : list StoredAsset.t) : Outcome :=
  match defaultPathOf (name requestedAsset +:+ "@" +:+ v) entries with
  | Some defaultPath =>
      if truthy_string defaultPath then
        Redirect ("/" +:+ name requestedAsset +:+ "@" +:+ v +:+ "/" +:+ defaultPath)
      else NotFound
  | None => NotFound
  end.

(** What [computeUriPath] returns for a serialized candidate. *)
Definition uriPath (requestedAsset : Asset) (assetStorageName : string)
    (entries : list StoredAsset.t) : string :=
  let defaultPath := defaultPathOf assetStorageName entries in
  let hasPath := truthy (path requestedAsset) || truthy defaultPath in
  if negb hasPath then ""
  else "/" +:+ assetStorageName +:+
       (if truthy (path requestedAsset) then interpolate (path requestedAsset)
        else "/" +:+ interpolate defaultPath).

(** The state in which the [try] block of [expand] starts. *)
Definition entered (s : State) : State :=
  snd (r_log LogLevel (MsgExpand (uri (r s))) s).

(** A computation that makes no terminal call. *)
Definition quiet {A} (m : M A) : Prop :=
  forall s, sent (r (snd (m s))) = sent (r s).

(** What one run of a block sent, next to what it returned: one answer; or
    nothing and an exception. *)
Inductive Once : exn + unit -> list Action -> Prop :=
  | once_answered o : Once (inr tt) [answer o]
  | once_threw e : Once (inl e) [].

(** The same, the answer being to serve. *)
Inductive Served : exn + unit -> list Action -> Prop :=
  | served_body body : Served (inr tt) [answer (Serve body)]
  | served_threw e : Served (inl e) [].

(** The same for the [try] block of [expand], which on a complete URI with
    a minified name can answer a second time. *)
Inductive Shape (minified : Prop) : exn + unit -> list Action -> Prop :=
  | shape_once o : Shape minified (inr tt) [answer o]
  | shape_threw e : Shape minified (inl e) []
  | shape_twice body o :
      minified -> Shape minified (inr tt) [answer (Serve body); answer o]
  | shape_served_threw body e :
      minified -> Shape minified (inl e) [answer (Serve body)].

Definition shaped {A} (P : exn + A -> list Action -> Prop) (m : M A) : Prop :=
  forall s, exists acts,
    sent (r (snd (m s))) = (sent (r s) ++ acts)%list /\ P (fst (m s)) acts.

(** The request is for a complete URI with a minified name. *)
Definition minified (u : string) : Prop :=
  isMinificationRequested u = true
  /\ exists requestedAsset,
       parseFromUrl u = inr requestedAsset
       /\ truthy (path requestedAsset) && isVersionPreciseEnough requestedAsset = true.

(** *** Definitions for further statements *)

(** What [source] holds after [try { source = readFile(r, file) } catch (e) {}]
    on a [source] that was undefined. *)
Definition readOrNothing (file : string) : option string :=
  match readFile file with
  | inr source => source
  | inl _ => None
  end.

(** The minifier [expand] applies for a URI: the JS one on a JS URI, else
    the CSS one on a CSS URI, else none. *)
Definition minifier (u : string) (text : string) : exn + string :=
  if isJsURI u then minifyJS text
  else if isCssURI u then minifyCSS text
  else inr text.

(** What the block on [r.variables.serveFiles] answers for a URI: the file
    when serving is on and the file can be read, not found otherwise. *)
Definition fileOutcome (serve : option string) (u : string) : Outcome :=
  if truthy serve then
    match readFile (VOLUME_MOUNT_PATH +:+ u) with
    | inr content => Serve content
    | inl _ => NotFound
    end
  else NotFound.

(** The response headers after the CORS policy of [redirectOrResolve]. *)
Definition withCors (headers : gmap string string) : gmap string string :=
  if truthy A7_CORS_ALL then
    <["access-control-allow-headers" := "*"]>
      (<["access-control-allow-origin" := "*"]> headers)
  else headers.

(** A computation that leaves the state as it is. *)
Definition stateless {A} (m : M A) : Prop := forall s, snd (m s) = s.

(** A computation that keeps every array of the store, and the request's
    URI and variables. *)
Definition keeps {A} (m : M A) : Prop :=
  forall s,
    heap s ⊆ heap (snd (m s))
    /\ uri (r (snd (m s))) = uri (r s)
    /\ serveFiles (r (snd (m s))) = serveFiles (r s).

(** ** The sort *)

Section sort_facts.
Context {A : Type} (cmp : A -> A -> Z).

Lemma sort_insert_elem x y l : y ∈ sort_insert cmp x l <-> y = x \/ y ∈ l.
Proof using Type.
  induction l as [|z l IH]; cbn [sort_insert].
  - rewrite list_elem_of_singleton.
    split; [intros ->; now left | intros [->|H]; [reflexivity | inversion H]].
  - destruct (cmp x z <=? 0)%Z.
    + apply elem_of_cons.
    + rewrite !elem_of_cons, IH.
      split; [intros [->|[->|H]] | intros [->|[->|H]]]; auto.
Qed.

Lemma sort_elem y l : y ∈ sort cmp l <-> y ∈ l.
Proof using Type.
  induction l as [|x l IH]; cbn [sort foldr]; [reflexivity|].
  fold (sort cmp l). rewrite sort_insert_elem, elem_of_cons, IH. reflexivity.
Qed.

(** The first element of a sorted array is not after any other. *)
Lemma sort_head_first l m :
  consistent cmp -> head (sort cmp l) = Some m -> forall b, b ∈ l -> (cmp m b <= 0)%Z.
Proof using Type.
  intros [Htot Htrans]. revert m.
  induction l as [|x l IH]; intros m; cbn [sort foldr]; [discriminate|].
  fold (sort cmp l). intros Hm b Hb.
  assert (Hin : b = x \/ b ∈ l) by (apply elem_of_cons; exact Hb).
  destruct (sort cmp l) as [|y l'] eqn:Hs.
  - cbn in Hm. injection Hm as <-.
    destruct Hin as [->|Hin]; [destruct (Htot x x); assumption|].
    apply sort_elem in Hin. rewrite Hs in Hin. inversion Hin.
  - cbn [sort_insert] in Hm. specialize (IH y eq_refl).
    destruct (Z.leb_spec (cmp x y) 0) as [Hxy|Hxy]; cbn in Hm; injection Hm as <-.
    + destruct Hin as [->|Hin]; [destruct (Htot x x); assumption|].
      eapply Htrans; [exact Hxy | apply IH, Hin].
    + destruct Hin as [->|Hin]; [|apply IH, Hin].
      destruct (Htot y x) as [?|?]; [assumption | lia].
Qed.

Lemma sort_nonempty l : l <> [] -> sort cmp l <> [].
Proof using Type.
  destruct l as [|x l]; [done|]. intros _ Hs.
  assert (Hx : x ∈ sort cmp (x :: l)) by (apply sort_elem; left).
  rewrite Hs in Hx. inversion Hx.
Qed.

(** Sorting rearranges; with a consistent comparator the result is in
    order. *)
Lemma sort_insert_Permutation x l : sort_insert cmp x l ≡ₚ x :: l.
Proof using Type.
  induction l as [|y l IH]; cbn [sort_insert]; [reflexivity|].
  destruct (cmp x y <=? 0)%Z; [reflexivity|].
  rewrite IH. apply Permutation_swap.
Qed.

Lemma sort_Permutation l : sort cmp l ≡ₚ l.
Proof using Type.
  induction l as [|x l IH]; cbn [sort foldr]; [reflexivity|].
  fold (sort cmp l). now rewrite sort_insert_Permutation, IH.
Qed.

Lemma sort_insert_Sorted x l :
  consistent cmp ->
  Sorted (fun a b => cmp a b <= 0)%Z l ->
  Sorted (fun a b => cmp a b <= 0)%Z (sort_insert cmp x l).
Proof using Type.
  intros [Htot _] Hl. induction Hl as [|y l Hl IH Hy]; cbn [sort_insert].
  - repeat constructor.
  - destruct (Z.leb_spec (cmp x y) 0) as [Hxy|Hxy].
    + repeat constructor; assumption.
    + constructor; [exact IH|].
      assert (Hyx : (cmp y x <= 0)%Z) by (destruct (Htot y x); [assumption | lia]).
      destruct Hy as [|z l Hyz]; cbn [sort_insert]; [constructor; exact Hyx|].
      destruct (cmp x z <=? 0)%Z; constructor; assumption.
Qed.

Lemma sort_Sorted l :
  consistent cmp -> Sorted (fun a b => cmp a b <= 0)%Z (sort cmp l).
Proof using Type.
  intros Hc. induction l as [|x l IH]; cbn [sort foldr]; [constructor|].
  fold (sort cmp l). now apply sort_insert_Sorted.
Qed.

End sort_facts.

(** ** Lemmas and theorems *)

(** *** Running the monad *)

Lemma bind_inr {A B} (m : M A) (k : A -> M B) s x s' :
  m s = (inr x, s') -> bind m k s = k x s'.
Proof. intros H. unfold bind. now rewrite H. Qed.

Lemma bind_inl {A B} (m : M A) (k : A -> M B) s e s' :
  m s = (inl e, s') -> bind m k s = (inl e, s').
Proof. intros H. unfold bind. now rewrite H. Qed.

Lemma mapM_total {A B} (f : A -> B) (xs : list A) :
  mapM (fun x => inr (f x)) xs = inr (List.map f xs).
Proof. induction xs as [|x xs IH]; cbn; [reflexivity|]. now rewrite IH. Qed.

(** A fresh reference is not in use. *)
Lemma fresh_unused (h : gmap loc array) : h !! fresh (dom h) = None.
Proof. apply not_elem_of_dom, is_fresh. Qed.

Lemma alloc_subseteq (h : gmap loc array) a : h ⊆ <[fresh (dom h) := a]> h.
Proof. apply insert_subseteq, fresh_unused. Qed.

Lemma load_run s l a : heap s !! l = Some a -> load l s = (inr a, s).
Proof. intros H. unfold load. now rewrite H. Qed.

Lemma Array_map_run {A B} (view : array -> exn + list A) (mk : list B -> array)
    (f : A -> exn + B) l s a xs :
  heap s !! l = Some a -> view a = inr xs ->
  Array_map view mk f l s =
    match mapM f xs with
    | inl e => (inl e, s)
    | inr ys => (inr (fresh (dom (heap s))),
                 mkState (r s) (<[fresh (dom (heap s)) := mk ys]> (heap s)))
    end.
Proof.
  intros Hl Hv. unfold Array_map, bind, lift, alloc. rewrite (load_run _ _ _ Hl), Hv.
  destruct (mapM f xs); reflexivity.
Qed.

Lemma Array_filter_run f l s xs :
  heap s !! l = Some (Assets xs) ->
  Array_filter f l s =
    (inr (fresh (dom (heap s))),
     mkState (r s) (<[fresh (dom (heap s)) := Assets (List.filter f xs)]> (heap s))).
Proof. intros Hl. unfold Array_filter, bind, lift, alloc. now rewrite (load_run _ _ _ Hl). Qed.

(** [sort] writes the sorted elements back into the array it was called on. *)
Lemma Array_sort_run cmp l s xs :
  heap s !! l = Some (Assets xs) ->
  Array_sort cmp l s = (inr l, mkState (r s) (<[l := Assets (sort cmp xs)]> (heap s))).
Proof. intros Hl. unfold Array_sort, bind, lift, store. now rewrite (load_run _ _ _ Hl). Qed.

Lemma Array_first_run l s xs :
  heap s !! l = Some (Assets xs) -> Array_first l s = (inr (head xs), s).
Proof. intros Hl. unfold Array_first, bind, lift. now rewrite (load_run _ _ _ Hl). Qed.

Lemma Array_find_run f l s xs :
  heap s !! l = Some (StoredAssets xs) -> Array_find f l s = (inr (List.find f xs), s).
Proof. intros Hl. unfold Array_find, bind, lift. now rewrite (load_run _ _ _ Hl). Qed.

Lemma extends_heap s h : heap s ⊆ h -> extends s (mkState (r s) h).
Proof. intros H. repeat split; assumption. Qed.

Lemma extends_log s lv m h :
  heap s ⊆ h -> extends s (snd (r_log lv m (mkState (r s) h))).
Proof. intros H. repeat split; assumption. Qed.

(** *** The resolver *)

(** A run of the resolver on a catalog held at [all]. *)
Lemma findBestMatchingCandidate_run requestedAsset s all entries :
  allStoredAssets = inr all ->
  heap s !! all = Some (StoredAssets entries) ->
  exists s', findBestMatchingCandidate requestedAsset s = (resolver requestedAsset entries, s')
             /\ extends s s'.
Proof.
  intros Hall Hcat. unfold findBestMatchingCandidate, resolver.
  rewrite Hall. rewrite (bind_inr _ _ s all s) by reflexivity.
  pose proof (Array_map_run the_stored Strings (fun p => inr (StoredAsset.name p))
                all s _ entries Hcat eq_refl) as H1.
  rewrite mapM_total in H1. rewrite (bind_inr _ _ _ _ _ H1). clear H1.
  set (h0 := heap s) in *.
  set (l1 := fresh (dom h0)). set (h1 := <[l1 := _]> h0).
  assert (S1 : h0 ⊆ h1) by apply alloc_subseteq.
  pose proof (Array_map_run the_strings Assets parseFromStorageName l1 (mkState (r s) h1)
                _ _ (lookup_insert_eq _ _ _) eq_refl) as H2.
  destruct (mapM parseFromStorageName (List.map StoredAsset.name entries)) as [e|assets].
  { rewrite (bind_inl _ _ _ _ _ H2). eexists. split; [reflexivity|].
    apply extends_heap, S1. }
  rewrite (bind_inr _ _ _ _ _ H2). clear H2. cbn [heap r].
  set (l2 := fresh (dom h1)). set (h2 := <[l2 := _]> h1).
  assert (S2 : h0 ⊆ h2) by (etrans; [exact S1 | apply alloc_subseteq]).
  rewrite (bind_inr _ _ _ _ _ (Array_filter_run _ l2 (mkState (r s) h2) _ (lookup_insert_eq _ _ _))).
  cbn [heap r].
  set (l3 := fresh (dom h2)). set (h3 := <[l3 := _]> h2).
  rewrite (bind_inr _ _ _ _ _ (Array_sort_run _ l3 (mkState (r s) h3) _ (lookup_insert_eq _ _ _))).
  cbn [heap r].
  set (h4 := <[l3 := _]> h3).
  assert (S4 : h0 ⊆ h4).
  { unfold h4, h3. rewrite insert_insert_eq. etrans; [exact S2 | apply alloc_subseteq]. }
  rewrite (bind_inr _ _ _ _ _ (Array_filter_run _ l3 (mkState (r s) h4) _ (lookup_insert_eq _ _ _))).
  cbn [heap r].
  set (l5 := fresh (dom h4)). set (h5 := <[l5 := _]> h4).
  assert (S5 : h0 ⊆ h5) by (etrans; [exact S4 | apply alloc_subseteq]).
  rewrite (bind_inr _ _ _ _ _ (Array_first_run l5 (mkState (r s) h5) _ (lookup_insert_eq _ _ _))).
  fold (candidates requestedAsset assets).
  destruct (head (candidates requestedAsset assets)) as [found|].
  - eexists. split; [reflexivity|]. apply (extends_log s), S5.
  - eexists. split; [reflexivity|]. apply (extends_log s), S5.
Qed.

(** The resolver either runs on a catalog, or stops before touching the
    store. *)
Lemma findBestMatchingCandidate_cases requestedAsset s :
  (exists all entries, allStoredAssets = inr all
                       /\ heap s !! all = Some (StoredAssets entries))
  \/ snd (findBestMatchingCandidate requestedAsset s) = s.
Proof.
  unfold findBestMatchingCandidate.
  destruct allStoredAssets as [e|all] eqn:Hall; [right; reflexivity|].
  destruct (heap s !! all) as [a|] eqn:Hcat.
  - destruct a as [entries|l|l].
    + left. eauto.
    + right. unfold bind at 1. cbn [lift]. unfold bind at 1.
      unfold Array_map, bind, lift. now rewrite (load_run _ _ _ Hcat).
    + right. unfold bind at 1. cbn [lift]. unfold bind at 1.
      unfold Array_map, bind, lift. now rewrite (load_run _ _ _ Hcat).
  - right. unfold bind at 1. cbn [lift]. unfold bind at 1.
    unfold Array_map, bind, lift, load. now rewrite Hcat.
Qed.

Lemma filter_all {A} (f : A -> bool) (l : list A) :
  (forall x, x ∈ l -> f x = true) -> List.filter f l = l.
Proof.
  induction l as [|x l IH]; intros H; [reflexivity|].
  cbn. rewrite (H x) by left. f_equal. apply IH. intros y Hy. apply H. now right.
Qed.

(** C1: on every requested asset and every catalog, held as an array at
    the reference [allStoredAssets] returns, [findBestMatchingCandidate]
    returns the first element of: every catalog storage name parsed, those
    whose name equals the request's name kept, sorted by the comparator,
    filtered by the predicate against the request; and nothing when no
    element is left.  (When parsing a storage name throws, that exception
    is the result.) *)
Theorem findBestMatchingCandidate_first_candidate requestedAsset s all entries :
  allStoredAssets = inr all ->
  heap s !! all = Some (StoredAssets entries) ->
  fst (findBestMatchingCandidate requestedAsset s)
  = match mapM parseFromStorageName (List.map StoredAsset.name entries) with
    | inl e => inl e
    | inr assets =>
        inr (head (List.filter (fun asset => matches requestedAsset asset)
                     (sort compare
                        (List.filter (fun p => String.eqb (name p) (name requestedAsset))
                           assets))))
    end.
Proof.
  intros Hall Hcat.
  destruct (findBestMatchingCandidate_run requestedAsset s all entries Hall Hcat)
    as (s' & Hrun & _).
  rewrite Hrun. reflexivity.
Qed.

(** C4: when the catalog holds at least one entry of the request's name,
    and the predicate accepts every one of them (as it does for a request
    with no version component), [findBestMatchingCandidate] returns one of
    these entries, and the comparator puts it first: no entry of that name
    is newer. *)
Theorem findBestMatchingCandidate_unconstrained_newest requestedAsset s all entries assets :
  consistent compare ->
  allStoredAssets = inr all ->
  heap s !! all = Some (StoredAssets entries) ->
  mapM parseFromStorageName (List.map StoredAsset.name entries) = inr assets ->
  let eligible := List.filter (fun p => String.eqb (name p) (name requestedAsset)) assets in
  eligible <> [] ->
  (forall c, c ∈ eligible -> matches requestedAsset c = true) ->
  exists newest,
    fst (findBestMatchingCandidate requestedAsset s) = inr (Some newest)
    /\ newest ∈ eligible
    /\ forall b, b ∈ eligible -> (compare newest b <= 0)%Z.
Proof.
  intros Hcmp Hall Hcat Hparse eligible Hne Hmatch.
  destruct (findBestMatchingCandidate_run requestedAsset s all entries Hall Hcat)
    as (s' & Hrun & _).
  rewrite Hrun. unfold resolver. rewrite Hparse. unfold candidates. fold eligible.
  rewrite filter_all by (intros x Hx; apply Hmatch; apply sort_elem in Hx; exact Hx).
  destruct (sort compare eligible) as [|m rest] eqn:Hs.
  { exfalso. eapply sort_nonempty; eauto. }
  exists m. split; [reflexivity|]. split.
  - apply (sort_elem compare). rewrite Hs. left.
  - apply sort_head_first; [exact Hcmp | now rewrite Hs].
Qed.

(** C8: [findBestMatchingCandidate] leaves every array that existed before
    the call as it was, and the catalog array in particular: same entries,
    same order, same fields.  The array it sorts in place is one it
    allocated itself. *)
Theorem findBestMatchingCandidate_keeps_catalog requestedAsset s :
  heap s ⊆ heap (snd (findBestMatchingCandidate requestedAsset s))
  /\ (forall all, allStoredAssets = inr all ->
        heap (snd (findBestMatchingCandidate requestedAsset s)) !! all = heap s !! all).
Proof.
  destruct (findBestMatchingCandidate_cases requestedAsset s)
    as [(all & entries & Hall & Hcat)|Hsame].
  - destruct (findBestMatchingCandidate_run requestedAsset s all entries Hall Hcat)
      as (s' & Hrun & Hext).
    rewrite Hrun. cbn [snd]. destruct Hext as (_ & _ & _ & _ & Hsub).
    split; [exact Hsub|].
    intros all' Hall'. rewrite Hall in Hall'. injection Hall' as <-.
    rewrite Hcat. eapply lookup_weaken; eauto.
  - rewrite Hsame. split; [reflexivity | auto].
Qed.

(** *** Runs of the smaller functions *)

Lemma handleNotFound_run s :
  exists s', handleNotFound s = (inr tt, s')
             /\ sent (r s') = (sent (r s) ++ [answer NotFound])%list
             /\ headersOut (r s') = headersOut (r s)
             /\ heap s' = heap s.
Proof. eexists. split; [reflexivity|]. repeat split. Qed.

Lemma redirectOrResolve_run target s :
  exists s', redirectOrResolve target s = (inr tt, s')
             /\ sent (r s') = (sent (r s) ++ [answer (Redirect target)])%list
             /\ heap s' = heap s.
Proof.
  unfold redirectOrResolve, answer.
  destruct (truthy A7_CORS_ALL), (truthy A7_PATH_AUTO_RESOLVE);
    (eexists; split; [reflexivity|]; split; reflexivity).
Qed.

Lemma computeUriPath_run requestedAsset candidateAsset s all entries :
  allStoredAssets = inr all ->
  heap s !! all = Some (StoredAssets entries) ->
  computeUriPath requestedAsset candidateAsset s =
    (match serializeAssetName candidateAsset with
     | inl e => inl e
     | inr storageName => inr (uriPath requestedAsset storageName entries)
     end, s).
Proof.
  intros Hall Hcat. unfold computeUriPath, uriPath, defaultPathOf.
  destruct (serializeAssetName candidateAsset) as [e|sn]; [reflexivity|].
  rewrite (bind_inr _ _ s sn s) by reflexivity.
  rewrite Hall, (bind_inr _ _ s all s) by reflexivity.
  rewrite (bind_inr _ _ _ _ _ (Array_find_run _ all s entries Hcat)).
  destruct (negb _); reflexivity.
Qed.

Lemma assetDefaultPath_run requestedAsset v s all entries :
  truthy_string (name requestedAsset) = true ->
  version requestedAsset = Some v ->
  truthy_string v = true ->
  allStoredAssets = inr all ->
  heap s !! all = Some (StoredAssets entries) ->
  assetDefaultPath requestedAsset s =
    (inr (or_else (defaultPathOf (name requestedAsset +:+ "@" +:+ v) entries) ""), s).
Proof.
  intros Hn Hv Hvt Hall Hcat. unfold assetDefaultPath, defaultPathOf.
  rewrite Hn, Hv. cbn [truthy interpolate]. rewrite Hvt. cbn [negb orb].
  rewrite Hall, (bind_inr _ _ s all s) by reflexivity.
  now rewrite (bind_inr _ _ _ _ _ (Array_find_run _ all s entries Hcat)).
Qed.

Lemma truthy_slash s : truthy_string ("/" +:+ s) = true.
Proof. reflexivity. Qed.

Lemma truthy_empty : truthy_string "" = false.
Proof. reflexivity. Qed.

(** Close a run that ends in a terminal call [H : exists s', m s = (inr tt, s') /\ ...]. *)
Ltac ends_in H Hsent :=
  let s3 := fresh "s" in
  let Hend := fresh "Hend" in
  let Hsent3 := fresh "Hsent" in
  destruct H as (s3 & Hend & Hsent3 & _);
  rewrite Hend; exists s3; split; [reflexivity | rewrite Hsent3; try rewrite Hsent; reflexivity].

(** C7: [redirectOrResolve] answers a redirect target with an internal
    redirect when [A7_PATH_AUTO_RESOLVE] is set, and with status 302 and the
    target otherwise; when [A7_CORS_ALL] is set it first adds the wildcard
    [access-control-allow-origin] and [access-control-allow-headers] headers,
    whichever of the two it then does, and adds no header otherwise.  It
    makes this one terminal call and does not throw. *)
Theorem redirectOrResolve_policy target s :
  let s' := snd (redirectOrResolve target s) in
  fst (redirectOrResolve target s) = inr tt
  /\ sent (r s') = (sent (r s) ++
       [if truthy A7_PATH_AUTO_RESOLVE then InternalRedirect target
        else Return 302 (Some target)])%list
  /\ headersOut (r s') =
       (if truthy A7_CORS_ALL then
          <["access-control-allow-headers" := "*"]>
            (<["access-control-allow-origin" := "*"]> (headersOut (r s)))
        else headersOut (r s))
  /\ heap s' = heap s.
Proof.
  unfold redirectOrResolve.
  destruct (truthy A7_CORS_ALL), (truthy A7_PATH_AUTO_RESOLVE); repeat split.
Qed.

(** *** Runs of [expand] *)

Lemma expand_unfold s :
  expand s = try_catch (expand_try (uri (r s))) expand_catch (entered s).
Proof. reflexivity. Qed.

Lemma expand_catch_run e s :
  exists s', expand_catch e s = (inr tt, s')
             /\ sent (r s') = (sent (r s) ++ [answer NotFound])%list
             /\ heap s' = heap s.
Proof. eexists. split; [reflexivity|]. split; reflexivity. Qed.

(** The [try] block on a request with an imprecise version. *)
Lemma expand_imprecise_run u requestedAsset s all entries assets :
  parseFromUrl u = inr requestedAsset ->
  isVersionPreciseEnough requestedAsset = false ->
  allStoredAssets = inr all ->
  heap s !! all = Some (StoredAssets entries) ->
  mapM parseFromStorageName (List.map StoredAsset.name entries) = inr assets ->
  (exists e, serializeAssetName None = inl e) ->
  exists s', try_catch (expand_try u) expand_catch s = (inr tt, s')
             /\ sent (r s') =
                (sent (r s) ++
                 [answer (imprecise_outcome requestedAsset
                            (head (candidates requestedAsset assets)) entries)])%list.
Proof.
  intros Hparse Himp Hall Hcat Hnames [e0 Hundef].
  unfold try_catch, expand_try.
  rewrite Hparse, (bind_inr _ _ s requestedAsset s) by reflexivity.
  cbv zeta. rewrite Himp, andb_false_r. cbn [negb].
  unfold bind at 1. cbn [r_log modify_r].
  set (s1 := mkState _ (heap s)).
  destruct (findBestMatchingCandidate_run requestedAsset s1 all entries Hall Hcat)
    as (s2 & Hrun & Hext).
  unfold resolver in Hrun. rewrite Hnames in Hrun. rewrite (bind_inr _ _ _ _ _ Hrun).
  destruct Hext as (_ & _ & _ & Hsent & Hsub). cbn [r sent s1] in Hsent.
  assert (Hcat2 : heap s2 !! all = Some (StoredAssets entries))
    by (eapply lookup_weaken; [exact Hcat | exact Hsub]).
  pose proof (computeUriPath_run requestedAsset (head (candidates requestedAsset assets))
                s2 all entries Hall Hcat2) as Hpath.
  unfold imprecise_outcome.
  destruct (head (candidates requestedAsset assets)) as [candidate|].
  2:{ rewrite Hundef in Hpath. rewrite (bind_inl _ _ _ _ _ Hpath).
      ends_in (expand_catch_run e0 s2) Hsent. }
  destruct (serializeAssetName (Some candidate)) as [e|storageName].
  { rewrite (bind_inl _ _ _ _ _ Hpath). ends_in (expand_catch_run e s2) Hsent. }
  rewrite (bind_inr _ _ _ _ _ Hpath). unfold uriPath. cbv zeta.
  destruct (truthy (path requestedAsset)) eqn:Hp.
  - cbn [orb negb]. rewrite truthy_slash. cbn [negb].
    ends_in (redirectOrResolve_run
               ("/" +:+ storageName +:+ interpolate (path requestedAsset)) s2) Hsent.
  - cbn [orb]. destruct (defaultPathOf storageName entries) as [defaultPath|];
      cbn [truthy interpolate]; [destruct (truthy_string defaultPath)|]; cbn [negb].
    + rewrite truthy_slash. cbn [negb].
      ends_in (redirectOrResolve_run ("/" +:+ storageName +:+ "/" +:+ defaultPath) s2) Hsent.
    + rewrite truthy_empty. cbn [negb]. ends_in (handleNotFound_run s2) Hsent.
    + rewrite truthy_empty. cbn [negb]. ends_in (handleNotFound_run s2) Hsent.
Qed.

(** C2: on a request whose parsed version is imprecise, [expand] runs the
    resolver on the catalog; with no match the outcome is not found;
    otherwise the target is a slash, the serialized match, and then the
    request's path when it has one, or else a slash and the default path
    the catalog registers for the match; with neither path the outcome is
    not found, otherwise a redirect to that target.  (Every storage name is
    taken to parse, and the serializer to throw on undefined, as reading a
    field of undefined does: that exception is what turns no match into not
    found.) *)
Theorem expand_imprecise_version s requestedAsset all entries assets :
  parseFromUrl (uri (r s)) = inr requestedAsset ->
  isVersionPreciseEnough requestedAsset = false ->
  allStoredAssets = inr all ->
  heap s !! all = Some (StoredAssets entries) ->
  mapM parseFromStorageName (List.map StoredAsset.name entries) = inr assets ->
  (exists e, serializeAssetName None = inl e) ->
  fst (expand s) = inr tt
  /\ sent (r (snd (expand s))) =
     (sent (r s) ++
      [answer (imprecise_outcome requestedAsset
                 (head (candidates requestedAsset assets)) entries)])%list.
Proof.
  intros Hparse Himp Hall Hcat Hnames Hundef. rewrite expand_unfold.
  destruct (expand_imprecise_run (uri (r s)) requestedAsset (entered s) all entries assets
              Hparse Himp Hall Hcat Hnames Hundef) as (s' & Hrun & Hsent).
  rewrite Hrun. split; [reflexivity | exact Hsent].
Qed.

(** The [try] block on a request with a precise version and no path. *)
Lemma expand_precise_run u requestedAsset v s all entries :
  parseFromUrl u = inr requestedAsset ->
  isVersionPreciseEnough requestedAsset = true ->
  truthy (path requestedAsset) = false ->
  truthy_string (name requestedAsset) = true ->
  version requestedAsset = Some v ->
  truthy_string v = true ->
  allStoredAssets = inr all ->
  heap s !! all = Some (StoredAssets entries) ->
  exists s', try_catch (expand_try u) expand_catch s = (inr tt, s')
             /\ sent (r s') =
                (sent (r s) ++ [answer (precise_outcome requestedAsset v entries)])%list.
Proof.
  intros Hparse Hprec Hpath Hname Hv Hvt Hall Hcat.
  unfold try_catch, expand_try.
  rewrite Hparse, (bind_inr _ _ s requestedAsset s) by reflexivity.
  cbv zeta. rewrite Hprec, Hpath. cbn [andb negb].
  unfold bind at 1. cbn [r_log modify_r].
  set (s1 := mkState _ (heap s)).
  rewrite (bind_inr _ _ _ _ _
             (assetDefaultPath_run requestedAsset v s1 all entries Hname Hv Hvt Hall Hcat)).
  unfold precise_outcome, or_else. rewrite Hv. cbn [interpolate].
  destruct (defaultPathOf _ entries) as [defaultPath|]; cbn [truthy interpolate];
    [destruct (truthy_string defaultPath) eqn:Hd|].
  - rewrite Hd. cbn [negb].
    ends_in (redirectOrResolve_run
               ("/" +:+ name requestedAsset +:+ "@" +:+ v +:+ "/" +:+ defaultPath) s1)
            (eq_refl (sent (r s1))).
  - rewrite truthy_empty. cbn [negb].
    ends_in (handleNotFound_run s1) (eq_refl (sent (r s1))).
  - rewrite truthy_empty. cbn [negb].
    ends_in (handleNotFound_run s1) (eq_refl (sent (r s1))).
Qed.

(** C5: on a request with a precise version and no path, [expand] looks up
    the default path the catalog registers for exactly [name@version]; when
    there is none the outcome is not found, otherwise a redirect to
    [/name@version/defaultPath].  (The request has a name and a version
    text, as every request with a precise version does.) *)
Theorem expand_precise_version_no_path s requestedAsset v all entries :
  parseFromUrl (uri (r s)) = inr requestedAsset ->
  isVersionPreciseEnough requestedAsset = true ->
  truthy (path requestedAsset) = false ->
  truthy_string (name requestedAsset) = true ->
  version requestedAsset = Some v ->
  truthy_string v = true ->
  allStoredAssets = inr all ->
  heap s !! all = Some (StoredAssets entries) ->
  fst (expand s) = inr tt
  /\ sent (r (snd (expand s))) =
     (sent (r s) ++
      [answer
         match defaultPathOf (name requestedAsset +:+ "@" +:+ v) entries with
         | Some defaultPath =>
             if truthy_string defaultPath then
               Redirect ("/" +:+ name requestedAsset +:+ "@" +:+ v +:+ "/" +:+ defaultPath)
             else NotFound
         | None => NotFound
         end])%list.
Proof.
  intros Hparse Hprec Hpath Hname Hv Hvt Hall Hcat. rewrite expand_unfold.
  destruct (expand_precise_run (uri (r s)) requestedAsset v (entered s) all entries
              Hparse Hprec Hpath Hname Hv Hvt Hall Hcat) as (s' & Hrun & Hsent).
  rewrite Hrun. split; [reflexivity | exact Hsent].
Qed.

(** *** What a run sends *)

Lemma quiet_bind {A B} (m : M A) (k : A -> M B) :
  quiet m -> (forall x, quiet (k x)) -> quiet (bind m k).
Proof.
  intros Hm Hk s. unfold bind. specialize (Hm s).
  destruct (m s) as [[e|x] s']; cbn [snd] in *; [exact Hm|].
  rewrite <- Hm. apply Hk.
Qed.

Lemma quiet_lift {A} (v : exn + A) : quiet (lift v).
Proof. intros s. reflexivity. Qed.

Lemma quiet_ret {A} (x : A) : quiet (ret x).
Proof. intros s. reflexivity. Qed.

Lemma quiet_log lv m : quiet (r_log lv m).
Proof. intros s. reflexivity. Qed.

Lemma quiet_load l : quiet (load l).
Proof. intros s. unfold load. destruct (heap s !! l); reflexivity. Qed.

Lemma quiet_alloc a : quiet (alloc a).
Proof. intros s. reflexivity. Qed.

Lemma quiet_store l a : quiet (store l a).
Proof. intros s. reflexivity. Qed.

Create HintDb quiet.

#[local] Hint Resolve quiet_lift quiet_ret quiet_log quiet_load quiet_alloc quiet_store : quiet.

Ltac quiet_steps :=
  repeat first [ apply quiet_bind; [|intros ?] | solve [auto with quiet] ].

Lemma quiet_Array_map {A B} (view : array -> exn + list A) (mk : list B -> array)
    (f : A -> exn + B) l : quiet (Array_map view mk f l).
Proof. unfold Array_map. quiet_steps. Qed.

Lemma quiet_Array_filter f l : quiet (Array_filter f l).
Proof. unfold Array_filter. quiet_steps. Qed.

Lemma quiet_Array_sort cmp l : quiet (Array_sort cmp l).
Proof. unfold Array_sort. quiet_steps. Qed.

Lemma quiet_Array_first l : quiet (Array_first l).
Proof. unfold Array_first. quiet_steps. Qed.

Lemma quiet_Array_find f l : quiet (Array_find f l).
Proof. unfold Array_find. quiet_steps. Qed.

#[local] Hint Resolve quiet_Array_map quiet_Array_filter quiet_Array_sort
  quiet_Array_first quiet_Array_find : quiet.

Lemma quiet_findBestMatchingCandidate requestedAsset :
  quiet (findBestMatchingCandidate requestedAsset).
Proof.
  unfold findBestMatchingCandidate. quiet_steps.
  match goal with |- quiet (match ?b with _ => _ end) => destruct b end; quiet_steps.
Qed.

Lemma quiet_computeUriPath requestedAsset candidateAsset :
  quiet (computeUriPath requestedAsset candidateAsset).
Proof.
  unfold computeUriPath. quiet_steps. cbv zeta.
  destruct (negb _); quiet_steps.
Qed.

Lemma quiet_assetDefaultPath requestedAsset : quiet (assetDefaultPath requestedAsset).
Proof. unfold assetDefaultPath. destruct (_ || _); quiet_steps. Qed.

(** The minification branch serves once, unless a minifier throws, in
    which case it has served nothing. *)
Lemma serveMinified_shape u s :
  (exists body, fst (serveMinified u s) = inr tt
                /\ sent (r (snd (serveMinified u s)))
                   = (sent (r s) ++ [answer (Serve body)])%list)
  \/ (exists e src, fst (serveMinified u s) = inl e
                    /\ sent (r (snd (serveMinified u s))) = sent (r s)
                    /\ (minifyJS src = inl e \/ minifyCSS src = inl e)).
Proof.
  unfold serveMinified, bind, try_catch, lift, ret.
  cbn [r_log modify_r r heap].
  destruct (readFile (VOLUME_MOUNT_PATH +:+ u)) as [e1|source].
  - cbn [truthy].
    destruct (resolveNonMinifiedURI u) as [e2|file]; [|destruct (readFile _) as [e3|source2]];
      (destruct (isJsURI u); [|destruct (isCssURI u)]);
      try (destruct (minifyJS _) as [e4|min] eqn:Hm);
      try (destruct (minifyCSS _) as [e4|min] eqn:Hm);
      first [ left; eexists; split; reflexivity
            | right; do 2 eexists; split; [reflexivity|]; split; [reflexivity|]; eauto ].
  - destruct (truthy source) eqn:Hs; [left; eexists; split; reflexivity|].
    destruct (resolveNonMinifiedURI u) as [e2|file]; [|destruct (readFile _) as [e3|source2]];
      (destruct (isJsURI u); [|destruct (isCssURI u)]);
      try (destruct (minifyJS _) as [e4|min] eqn:Hm);
      try (destruct (minifyCSS _) as [e4|min] eqn:Hm);
      first [ left; eexists; split; reflexivity
            | right; do 2 eexists; split; [reflexivity|]; split; [reflexivity|]; eauto ].
Qed.

Lemma once_handleNotFound : shaped Once handleNotFound.
Proof. intros s. exists [answer NotFound]. split; [reflexivity | constructor]. Qed.

Lemma once_redirectOrResolve target : shaped Once (redirectOrResolve target).
Proof.
  intros s. exists [answer (Redirect target)].
  destruct (redirectOrResolve_run target s) as (s' & Hrun & Hsent & _).
  rewrite Hrun. split; [exact Hsent | constructor].
Qed.

Lemma once_after_quiet {A} (m : M A) (k : A -> M unit) :
  quiet m -> (forall x, shaped Once (k x)) -> shaped Once (bind m k).
Proof.
  intros Hm Hk s. unfold bind. specialize (Hm s).
  destruct (m s) as [[e|x] s'] eqn:Hrun; cbn [snd fst] in *.
  - exists []. rewrite app_nil_r. split; [exact Hm | constructor].
  - destruct (Hk x s') as (acts & Hsent & Hshape).
    exists acts. rewrite <- Hm. auto.
Qed.

Lemma once_serveFile u : shaped Once (serveFile u).
Proof.
  intros s. unfold serveFile, bind, gets, lift.
  destruct (truthy (serveFiles (r s))).
  - destruct (readFile (VOLUME_MOUNT_PATH +:+ u)) as [e|content].
    + exists []. rewrite app_nil_r. split; [reflexivity | constructor].
    + exists [answer (Serve content)]. split; [reflexivity | constructor].
  - apply once_handleNotFound.
Qed.

Lemma served_serveMinified u : shaped Served (serveMinified u).
Proof.
  intros s. destruct (serveMinified_shape u s)
    as [(body & Hres & Hsent)|(e & src & Hres & Hsent & _)].
  - exists [answer (Serve body)]. rewrite Hres. split; [exact Hsent | constructor].
  - exists []. rewrite Hres, app_nil_r. split; [exact Hsent | constructor].
Qed.

Lemma shape_of_once P res acts : Once res acts -> Shape P res acts.
Proof. intros []; constructor. Qed.

(** After the minified body was served, the block for [serveFiles] answers
    once more, or throws. *)
Lemma shape_served_then u s1 (k : M unit) :
  minified u -> shaped Once k ->
  exists acts,
    sent (r (snd (bind (serveMinified u) (fun _ => k) s1))) = (sent (r s1) ++ acts)%list
    /\ Shape (minified u) (fst (bind (serveMinified u) (fun _ => k) s1)) acts.
Proof.
  intros Hmf Hk. unfold bind.
  destruct (served_serveMinified u s1) as (a1 & Hs1 & Hsh1).
  destruct (serveMinified u s1) as [[e|[]] s2]; cbn [fst snd] in *.
  - exists a1. split; [exact Hs1|]. inversion Hsh1; subst. constructor.
  - destruct (Hk s2) as (a2 & Hs2 & Hsh2).
    exists (a1 ++ a2)%list. rewrite Hs2, Hs1, app_assoc. split; [reflexivity|].
    inversion Hsh1 as [body Hb Ha1|]; subst a1.
    inversion Hsh2 as [o Ho Ha2|e He Ha2]; subst a2; cbn [app].
    + now constructor.
    + now constructor.
Qed.

Lemma expand_try_shape u : shaped (Shape (minified u)) (expand_try u).
Proof.
  intros s. unfold expand_try.
  destruct (parseFromUrl u) as [e|requestedAsset] eqn:Hparse.
  { exists []. rewrite app_nil_r. split; [reflexivity | constructor]. }
  rewrite (bind_inr _ _ s requestedAsset s) by reflexivity. cbv zeta.
  unfold bind at 1. cbn [r_log modify_r].
  set (s1 := mkState _ (heap s)).
  change (sent (r s)) with (sent (r s1)).
  destruct (truthy (path requestedAsset) && isVersionPreciseEnough requestedAsset) eqn:Hc;
    cbn [negb].
  - (* a complete URI *)
    destruct (isMinificationRequested u) eqn:Hmin.
    + apply shape_served_then; [split; eauto | apply once_serveFile].
    + rewrite (bind_inr _ _ s1 tt s1) by reflexivity.
      destruct (once_serveFile u s1) as (acts & Hs & Hsh).
      exists acts. split; [exact Hs | now apply shape_of_once].
  - (* a redirect is needed *)
    assert (Hk : forall (p : string) (target : string),
               shaped Once (if negb (truthy_string p) then handleNotFound
                            else redirectOrResolve target)).
    { intros p target. destruct (negb (truthy_string p));
        [apply once_handleNotFound | apply once_redirectOrResolve]. }
    assert (Hshape : shaped Once
              (if negb (isVersionPreciseEnough requestedAsset) then
                 bind (findBestMatchingCandidate requestedAsset) (fun candidateAsset =>
                 bind (computeUriPath requestedAsset candidateAsset) (fun newPath =>
                 if negb (truthy_string newPath) then handleNotFound
                 else redirectOrResolve newPath))
               else if negb (truthy (path requestedAsset)) then
                 bind (assetDefaultPath requestedAsset) (fun assetPath =>
                 if negb (truthy_string assetPath) then handleNotFound
                 else redirectOrResolve
                        ("/" +:+ name requestedAsset +:+ "@" +:+
                         interpolate (version requestedAsset) +:+ "/" +:+ assetPath))
               else handleNotFound)).
    { destruct (negb (isVersionPreciseEnough requestedAsset)).
      - apply once_after_quiet; [apply quiet_findBestMatchingCandidate|].
        intros candidateAsset. apply once_after_quiet; [apply quiet_computeUriPath|].
        intros newPath. apply Hk.
      - destruct (negb (truthy (path requestedAsset))).
        + apply once_after_quiet; [apply quiet_assetDefaultPath|].
          intros assetPath. apply Hk.
        + apply once_handleNotFound. }
    destruct (Hshape s1) as (acts & Hs & Hsh).
    exists acts. split; [exact Hs | now apply shape_of_once].
Qed.

(** [expand] as a whole: it returns normally, having answered once, or
    twice on a complete URI with a minified name. *)
Lemma expand_shape s :
  fst (expand s) = inr tt
  /\ ((exists o, sent (r (snd (expand s))) = (sent (r s) ++ [answer o])%list)
      \/ (minified (uri (r s))
          /\ exists body o,
               sent (r (snd (expand s)))
               = (sent (r s) ++ [answer (Serve body); answer o])%list)).
Proof.
  rewrite expand_unfold. unfold try_catch.
  destruct (expand_try_shape (uri (r s)) (entered s)) as (acts & Hsent & Hshape).
  change (sent (r (entered s))) with (sent (r s)) in Hsent.
  destruct (expand_try (uri (r s)) (entered s)) as [[e|[]] s1]; cbn [fst snd] in *.
  - destruct (expand_catch_run e s1) as (s2 & Hrun & Hsent2 & _).
    rewrite Hrun. cbn [fst snd]. split; [reflexivity|].
    rewrite Hsent2, Hsent.
    inversion Hshape as [| e' He Hacts | | body e' Hmf He Hacts]; subst acts.
    + left. exists NotFound. now rewrite app_nil_r.
    + right. split; [exact Hmf|]. exists body, NotFound. now rewrite <- app_assoc.
  - split; [reflexivity|]. rewrite Hsent.
    inversion Hshape as [o Ho Hacts | | body o Hmf Ho Hacts |]; subst acts.
    + left. now exists o.
    + right. split; [exact Hmf|]. now exists body, o.
Qed.

(** Away from a complete URI with a minified name, [expand] answers once. *)
Lemma expand_answers_once s :
  ~ minified (uri (r s)) ->
  exists o, sent (r (snd (expand s))) = (sent (r s) ++ [answer o])%list.
Proof.
  intros Hnot. destruct (expand_shape s) as (_ & [Honce|(Hmf & _)]); [exact Honce|].
  contradiction.
Qed.

(** C3: [expand] never throws: an exception of its [try] block (from the
    parser, the catalog, the serializer, a file read or a minifier) is
    caught, logged, and answered with the internal redirect to the 404
    page, which is then the last terminal call; away from a complete URI
    with a minified name it is the only one.  Every terminal call of
    [expand] is the answer for one of serve, redirect or not found, and
    there is at least one. *)
Theorem expand_never_throws s :
  fst (expand s) = inr tt
  /\ (forall e s1,
        expand_try (uri (r s)) (entered s) = (inl e, s1) ->
        sent (r (snd (expand s))) = (sent (r s1) ++ [answer NotFound])%list
        /\ (~ minified (uri (r s)) ->
            sent (r (snd (expand s))) = (sent (r s) ++ [answer NotFound])%list))
  /\ (exists acts,
        sent (r (snd (expand s))) = (sent (r s) ++ acts)%list
        /\ acts <> []
        /\ Forall (fun a => exists o, a = answer o) acts).
Proof.
  split; [apply expand_shape|]. split.
  - intros e s1 Htry. rewrite expand_unfold. unfold try_catch. 
    destruct (expand_try_shape (uri (r s)) (entered s)) as (acts & Hsent & Hshape).
    rewrite Htry in *. cbn [fst snd] in *.
    destruct (expand_catch_run e s1) as (s2 & Hrun & Hsent2 & _).
    rewrite Hrun. cbn [snd]. split; [exact Hsent2|].
    intros Hnot. rewrite Hsent2, Hsent.
    inversion Hshape as [| e' He Hacts | | body e' Hmf He Hacts]; subst acts.
    + now rewrite app_nil_r.
    + contradiction.
  - destruct (expand_shape s) as (_ & [(o & Ho)|(_ & body & o & Ho)]).
    + exists [answer o]. split; [exact Ho|]. split; [discriminate|].
      repeat constructor. now exists o.
    + exists [answer (Serve body); answer o]. split; [exact Ho|]. split; [discriminate|].
      repeat constructor; [now exists (Serve body) | now exists o].
Qed.

(** C6 fails on the code: on a complete URI with a minified name whose
    minifier does not throw, [expand] makes two terminal calls: it serves
    the minified body with status 200, and then goes on to the block for
    [serveFiles], which serves the file or answers not found. *)
Theorem expand_minified_answers_twice s requestedAsset :
  parseFromUrl (uri (r s)) = inr requestedAsset ->
  truthy (path requestedAsset) = true ->
  isVersionPreciseEnough requestedAsset = true ->
  isMinificationRequested (uri (r s)) = true ->
  (forall source, exists min, minifyJS source = inr min) ->
  (forall source, exists min, minifyCSS source = inr min) ->
  exists body o,
    sent (r (snd (expand s)))
    = (sent (r s) ++ [Return 200 body; answer o])%list.
Proof.
  intros Hparse Hpath Hprec Hmin Hjs Hcss.
  rewrite expand_unfold. unfold try_catch, expand_try.
  rewrite Hparse, (bind_inr _ _ (entered s) requestedAsset (entered s)) by reflexivity.
  cbv zeta. rewrite Hpath, Hprec, Hmin. cbn [andb negb].
  unfold bind at 1. cbn [r_log modify_r].
  set (s1 := mkState _ (heap (entered s))).
  change (sent (r s)) with (sent (r s1)).
  unfold bind.
  destruct (serveMinified_shape (uri (r s)) s1)
    as [(body & Hres & Hsent)|(e & src & Hres & _ & [He|He])].
  2:{ destruct (Hjs src) as [m Hm]. congruence. }
  2:{ destruct (Hcss src) as [m Hm]. congruence. }
  destruct (serveMinified (uri (r s)) s1) as [[e|[]] s2]; cbn [fst snd] in *;
    [discriminate|].
  destruct (once_serveFile (uri (r s)) s2) as (acts & Hsent2 & Hshape).
  destruct (serveFile (uri (r s)) s2) as [[e|[]] s3]; cbn [fst snd] in *.
  - destruct (expand_catch_run e s3) as (s4 & Hrun & Hsent4 & _).
    rewrite Hrun. cbn [snd]. exists body, NotFound.
    inversion Hshape; subst acts.
    rewrite Hsent4, Hsent2, Hsent, app_nil_r, <- app_assoc. reflexivity.
  - inversion Hshape as [o Ho Hacts|]; subst acts.
    exists body, o. rewrite Hsent2, Hsent, <- app_assoc. reflexivity.
Qed.

(** ** More on the resolver *)

Lemma mapM_elem {A B} (f : A -> exn + B) xs ys y :
  mapM f xs = inr ys -> y ∈ ys -> exists x, x ∈ xs /\ f x = inr y.
Proof.
  revert ys. induction xs as [|x xs IH]; intros ys; cbn [mapM].
  - intros [= <-] Hy. inversion Hy.
  - destruct (f x) as [e|y0] eqn:Hfx; [discriminate|].
    destruct (mapM f xs) as [e|ys0]; [discriminate|].
    intros [= <-] Hy. apply elem_of_cons in Hy as [->|Hy].
    + exists x. split; [left | exact Hfx].
    + destruct (IH ys0 eq_refl Hy) as (x' & Hx' & Hfx'). exists x'. split; [now right | exact Hfx'].
Qed.

Lemma mapM_elem_of {A B} (f : A -> exn + B) xs ys x :
  mapM f xs = inr ys -> x ∈ xs -> exists y, y ∈ ys /\ f x = inr y.
Proof.
  revert ys. induction xs as [|x0 xs IH]; intros ys; cbn [mapM].
  - intros _ Hx. inversion Hx.
  - destruct (f x0) as [e|y0] eqn:Hfx; [discriminate|].
    destruct (mapM f xs) as [e|ys0]; [discriminate|].
    intros [= <-] Hx. apply elem_of_cons in Hx as [->|Hx].
    + exists y0. split; [left | exact Hfx].
    + destruct (IH ys0 eq_refl Hx) as (y & Hy & Hfy). exists y. split; [now right | exact Hfy].
Qed.

(** One element on which the callback throws makes the whole [map] throw. *)
Lemma mapM_throws {A B} (f : A -> exn + B) xs x e :
  x ∈ xs -> f x = inl e -> exists e', mapM f xs = inl e'.
Proof.
  intros Hx Hfx. destruct (mapM f xs) as [e'|ys] eqn:Hm; [now exists e'|].
  destruct (mapM_elem_of f xs ys x Hm Hx) as (y & _ & Hy). congruence.
Qed.

Lemma mapM_Permutation {A B} (f : A -> exn + B) xs xs' ys :
  xs ≡ₚ xs' -> mapM f xs = inr ys -> exists ys', mapM f xs' = inr ys' /\ ys ≡ₚ ys'.
Proof.
  intros Hp. revert ys.
  induction Hp as [|x xs xs' Hp IH|x1 x2 xs|xs xs' xs'' Hp1 IH1 Hp2 IH2]; intros ys; cbn [mapM].
  - intros [= <-]. now exists [].
  - destruct (f x) as [e|y]; [discriminate|].
    destruct (mapM f xs) as [e|ys0]; [discriminate|]. intros [= <-].
    destruct (IH ys0 eq_refl) as (ys' & -> & Hys). exists (y :: ys'). split; [reflexivity|].
    now constructor.
  - destruct (f x2) as [e|y2]; [discriminate|].
    destruct (f x1) as [e|y1]; [discriminate|].
    destruct (mapM f xs) as [e|ys0]; [discriminate|]. intros [= <-].
    exists (y1 :: y2 :: ys0). split; [reflexivity | apply Permutation_swap].
  - intros Hys. destruct (IH1 ys Hys) as (ys' & Hys' & Hp').
    destruct (IH2 ys' Hys') as (ys'' & Hys'' & Hp'').
    exists ys''. split; [exact Hys'' | now transitivity ys'].
Qed.

Lemma filter_elem {A} (f : A -> bool) (l : list A) x :
  x ∈ List.filter f l <-> x ∈ l /\ f x = true.
Proof. rewrite !list_elem_of_In. apply List.filter_In. Qed.

(** The candidates are the assets of the request's name that the predicate
    accepts. *)
Lemma candidates_elem requestedAsset assets m :
  m ∈ candidates requestedAsset assets
  <-> m ∈ assets /\ name m = name requestedAsset /\ matches requestedAsset m = true.
Proof.
  unfold candidates. rewrite filter_elem, sort_elem, filter_elem, String.eqb_eq.
  split; [intros [[? ?] ?] | intros (? & ? & ?)]; auto.
Qed.

(** In a sorted list that was filtered, the first element is not after any
    other. *)
Lemma filter_sorted_head {A} (cmp : A -> A -> Z) (f : A -> bool) l m :
  consistent cmp ->
  Sorted (fun a b => cmp a b <= 0)%Z l ->
  head (List.filter f l) = Some m ->
  forall b, b ∈ List.filter f l -> (cmp m b <= 0)%Z.
Proof.
  intros [Htot Htrans] Hs.
  apply Sorted_StronglySorted in Hs; [|intros a b c; apply Htrans].
  induction Hs as [|x l Hs IH Hx]; cbn [List.filter]; [discriminate|].
  destruct (f x).
  - intros [= <-] b Hb. apply elem_of_cons in Hb as [->|Hb].
    + destruct (Htot x x); assumption.
    + apply filter_elem in Hb as [Hb _].
      apply list_elem_of_In in Hb. exact (proj1 (List.Forall_forall _ _) Hx b Hb).
  - exact IH.
Qed.

Lemma candidates_head_first requestedAsset assets m :
  consistent compare ->
  head (candidates requestedAsset assets) = Some m ->
  forall b, b ∈ candidates requestedAsset assets -> (compare m b <= 0)%Z.
Proof.
  intros Hc. unfold candidates. apply filter_sorted_head; [exact Hc|].
  now apply sort_Sorted.
Qed.

Lemma head_elem {A} (l : list A) m : head l = Some m -> m ∈ l.
Proof. destruct l; [discriminate|]. intros [= ->]. left. Qed.

Lemma head_None_elem {A} (l : list A) : head l = None <-> forall x, ~ x ∈ l.
Proof.
  destruct l as [|x l]; cbn.
  - split; [intros _ x Hx; inversion Hx | reflexivity].
  - split; [discriminate | intros H; destruct (H x); left].
Qed.

(** X1: a match [findBestMatchingCandidate] returns is the parsed storage
    name of a catalog entry, has the request's name, and is accepted by the
    predicate built on the request. *)
Theorem findBestMatchingCandidate_sound requestedAsset s all entries found :
  allStoredAssets = inr all ->
  heap s !! all = Some (StoredAssets entries) ->
  fst (findBestMatchingCandidate requestedAsset s) = inr (Some found) ->
  name found = name requestedAsset
  /\ matches requestedAsset found = true
  /\ exists p, p ∈ entries /\ parseFromStorageName (StoredAsset.name p) = inr found.
Proof.
  intros Hall Hcat.
  destruct (findBestMatchingCandidate_run requestedAsset s all entries Hall Hcat)
    as (s' & Hrun & _).
  rewrite Hrun. unfold resolver. cbn [fst].
  destruct (mapM parseFromStorageName (List.map StoredAsset.name entries))
    as [e|assets] eqn:Hparse; [discriminate|].
  intros [= Hhead]. apply head_elem, candidates_elem in Hhead as (Hin & Hname & Hmatch).
  split; [exact Hname|]. split; [exact Hmatch|].
  destruct (mapM_elem _ _ _ _ Hparse Hin) as (n & Hn & Hfn).
  apply list_elem_of_fmap in Hn as (p & -> & Hp). eauto.
Qed.

(** X2: when every storage name parses, [findBestMatchingCandidate]
    returns nothing exactly when no parsed entry has the request's name and
    is accepted by the predicate. *)
Theorem findBestMatchingCandidate_none requestedAsset s all entries assets :
  allStoredAssets = inr all ->
  heap s !! all = Some (StoredAssets entries) ->
  mapM parseFromStorageName (List.map StoredAsset.name entries) = inr assets ->
  fst (findBestMatchingCandidate requestedAsset s) = inr None
  <-> forall a, a ∈ assets -> name a = name requestedAsset ->
                matches requestedAsset a = false.
Proof.
  intros Hall Hcat Hparse.
  destruct (findBestMatchingCandidate_run requestedAsset s all entries Hall Hcat)
    as (s' & Hrun & _).
  rewrite Hrun. unfold resolver. rewrite Hparse. cbn [fst]. split.
  - intros [= Hhead] a Ha Hname.
    destruct (matches requestedAsset a) eqn:Hm; [|reflexivity].
    exfalso. apply (proj1 (head_None_elem _) Hhead a). apply candidates_elem. auto.
  - intros Hnone. f_equal. apply head_None_elem. intros a Ha.
    apply candidates_elem in Ha as (Ha & Hname & Hm). rewrite (Hnone a Ha Hname) in Hm.
    discriminate.
Qed.

(** X3: under a comparator that orders consistently, the match
    [findBestMatchingCandidate] returns is the newest of those the request
    accepts: the comparator puts it before, or level with, every parsed
    entry of the request's name that the predicate accepts. *)
Theorem findBestMatchingCandidate_newest_match requestedAsset s all entries assets found :
  consistent compare ->
  allStoredAssets = inr all ->
  heap s !! all = Some (StoredAssets entries) ->
  mapM parseFromStorageName (List.map StoredAsset.name entries) = inr assets ->
  fst (findBestMatchingCandidate requestedAsset s) = inr (Some found) ->
  forall b, b ∈ assets -> name b = name requestedAsset ->
            matches requestedAsset b = true -> (compare found b <= 0)%Z.
Proof.
  intros Hc Hall Hcat Hparse.
  destruct (findBestMatchingCandidate_run requestedAsset s all entries Hall Hcat)
    as (s' & Hrun & _).
  rewrite Hrun. unfold resolver. rewrite Hparse. cbn [fst].
  intros [= Hhead] b Hb Hname Hm.
  apply (candidates_head_first requestedAsset assets found Hc Hhead).
  apply candidates_elem. auto.
Qed.

(** X4: the order in which the catalog lists its entries does not decide
    the version: on two catalogs with the same entries in any order, under a
    consistent comparator, [findBestMatchingCandidate] finds nothing on
    both, or finds matches that the comparator puts level. *)
Theorem findBestMatchingCandidate_catalog_order requestedAsset s1 s2 all entries1 entries2
    assets :
  consistent compare ->
  allStoredAssets = inr all ->
  heap s1 !! all = Some (StoredAssets entries1) ->
  heap s2 !! all = Some (StoredAssets entries2) ->
  entries1 ≡ₚ entries2 ->
  mapM parseFromStorageName (List.map StoredAsset.name entries1) = inr assets ->
  match fst (findBestMatchingCandidate requestedAsset s1),
        fst (findBestMatchingCandidate requestedAsset s2) with
  | inr None, inr None => True
  | inr (Some m1), inr (Some m2) => (compare m1 m2 <= 0 /\ compare m2 m1 <= 0)%Z
  | _, _ => False
  end.
Proof.
  intros Hc Hall Hcat1 Hcat2 Hperm Hparse1.
  destruct (findBestMatchingCandidate_run requestedAsset s1 all entries1 Hall Hcat1)
    as (s1' & Hrun1 & _).
  destruct (findBestMatchingCandidate_run requestedAsset s2 all entries2 Hall Hcat2)
    as (s2' & Hrun2 & _).
  rewrite Hrun1, Hrun2. unfold resolver. cbn [fst]. rewrite Hparse1.
  assert (Hnames : List.map StoredAsset.name entries1 ≡ₚ List.map StoredAsset.name entries2)
    by now apply Permutation_map.
  destruct (mapM_Permutation _ _ _ _ Hnames Hparse1) as (assets2 & -> & Hassets).
  assert (Hsame : forall m, m ∈ candidates requestedAsset assets
                            <-> m ∈ candidates requestedAsset assets2).
  { intros m. rewrite !candidates_elem. now rewrite Hassets. }
  destruct (head (candidates requestedAsset assets)) as [m1|] eqn:H1;
    destruct (head (candidates requestedAsset assets2)) as [m2|] eqn:H2.
  - split.
    + apply (candidates_head_first requestedAsset assets m1 Hc H1).
      apply Hsame. now apply head_elem.
    + apply (candidates_head_first requestedAsset assets2 m2 Hc H2).
      apply Hsame. now apply head_elem.
  - apply head_elem, Hsame in H1. exact (proj1 (head_None_elem _) H2 m1 H1).
  - apply head_elem, Hsame in H2. exact (proj1 (head_None_elem _) H1 m2 H2).
  - exact I.
Qed.

(** ** More on [expand] *)

Lemma or_else_falsy v b : truthy v = false -> or_else v b = b.
Proof. intros H. unfold or_else. now rewrite H. Qed.

Lemma try_catch_bind_inr {A B} (m : M A) (k : A -> M B) h s x s' :
  m s = (inr x, s') -> try_catch (bind m k) h s = try_catch (k x) h s'.
Proof. intros H. unfold try_catch, bind. now rewrite H. Qed.

(** On a complete URI, [expand] comes down to the minification block and
    the block on [serveFiles], inside the [try]. *)
Lemma expand_complete_unfold s requestedAsset :
  parseFromUrl (uri (r s)) = inr requestedAsset ->
  truthy (path requestedAsset) = true ->
  isVersionPreciseEnough requestedAsset = true ->
  expand s =
    try_catch
      (bind (if isMinificationRequested (uri (r s)) then serveMinified (uri (r s)) else ret tt)
            (fun _ => serveFile (uri (r s))))
      expand_catch
      (snd (r_log LogLevel (MsgDebug true false true) (entered s))).
Proof.
  intros Hparse Hpath Hprec. rewrite expand_unfold. unfold try_catch, expand_try.
  rewrite Hparse, (bind_inr _ _ (entered s) requestedAsset (entered s)) by reflexivity.
  cbv zeta. rewrite Hpath, Hprec. cbn [andb negb]. reflexivity.
Qed.

Lemma serveFile_caught u s :
  exists s', try_catch (serveFile u) expand_catch s = (inr tt, s')
             /\ sent (r s') = (sent (r s) ++ [answer (fileOutcome (serveFiles (r s)) u)])%list
             /\ headersOut (r s') = headersOut (r s)
             /\ heap s' = heap s.
Proof.
  unfold try_catch, serveFile, fileOutcome, bind, gets, lift.
  destruct (truthy (serveFiles (r s))); [destruct (readFile (VOLUME_MOUNT_PATH +:+ u))|];
    eexists; (split; [reflexivity|]); repeat split.
Qed.

(** The minification block when the minified file itself can be read. *)
Lemma serveMinified_served u s :
  truthy (readOrNothing (VOLUME_MOUNT_PATH +:+ u)) = true ->
  exists s', serveMinified u s = (inr tt, s')
             /\ sent (r s') = (sent (r s) ++ [Return 200 (readOrNothing (VOLUME_MOUNT_PATH +:+ u))])%list
             /\ headersOut (r s') = headersOut (r s)
             /\ serveFiles (r s') = serveFiles (r s)
             /\ heap s' = heap s.
Proof.
  unfold readOrNothing, serveMinified, bind, try_catch, lift, ret.
  cbn [r_log modify_r r heap].
  destruct (readFile (VOLUME_MOUNT_PATH +:+ u)) as [e|source]; cbn [truthy]; [discriminate|].
  intros ->. eexists. split; [reflexivity|]. repeat split.
Qed.

(** The minification block when it cannot: [fallback] is what the second
    [try] leaves in [source]. *)
Lemma serveMinified_minifies u s min :
  truthy (readOrNothing (VOLUME_MOUNT_PATH +:+ u)) = false ->
  let fallback :=
    match resolveNonMinifiedURI u with
    | inr sourceFilePath =>
        match readFile (VOLUME_MOUNT_PATH +:+ sourceFilePath) with
        | inr source => source
        | inl _ => readOrNothing (VOLUME_MOUNT_PATH +:+ u)
        end
    | inl _ => readOrNothing (VOLUME_MOUNT_PATH +:+ u)
    end in
  minifier u (or_else fallback "") = inr min ->
  exists s', serveMinified u s = (inr tt, s')
             /\ sent (r s') = (sent (r s) ++ [Return 200 (Some min)])%list
             /\ headersOut (r s')
                = <["etag" := etag min]> (<["cache-tag" := "minified asset"]> (headersOut (r s)))
             /\ serveFiles (r s') = serveFiles (r s)
             /\ heap s' = heap s.
Proof.
  unfold readOrNothing, minifier, serveMinified, bind, try_catch, lift, ret.
  cbn [r_log modify_r r heap].
  destruct (readFile (VOLUME_MOUNT_PATH +:+ u)) as [e|source]; cbn [truthy].
  - intros _. cbv zeta.
    destruct (resolveNonMinifiedURI u) as [e2|file]; [|destruct (readFile _) as [e3|source2]];
      (destruct (isJsURI u); [|destruct (isCssURI u)]); intros Hmin; try rewrite Hmin;
      try (injection Hmin as <-); eexists; (split; [reflexivity|]); repeat split.
  - intros Hfalsy. rewrite Hfalsy. cbv zeta.
    destruct (resolveNonMinifiedURI u) as [e2|file]; [|destruct (readFile _) as [e3|source2]];
      (destruct (isJsURI u); [|destruct (isCssURI u)]); intros Hmin; try rewrite Hmin;
      try (injection Hmin as <-); eexists; (split; [reflexivity|]); repeat split.
Qed.

(** X5: one catalog entry whose storage name the parser throws on makes
    [findBestMatchingCandidate] throw, whatever asset is requested; a
    request with an imprecise version then ends in not found. *)
Theorem expand_unparsable_entry s requestedAsset all entries p e :
  parseFromUrl (uri (r s)) = inr requestedAsset ->
  isVersionPreciseEnough requestedAsset = false ->
  allStoredAssets = inr all ->
  heap s !! all = Some (StoredAssets entries) ->
  p ∈ entries ->
  parseFromStorageName (StoredAsset.name p) = inl e ->
  (exists e', fst (findBestMatchingCandidate requestedAsset s) = inl e')
  /\ fst (expand s) = inr tt
  /\ sent (r (snd (expand s))) = (sent (r s) ++ [answer NotFound])%list.
Proof.
  intros Hparse Himp Hall Hcat Hp He.
  assert (Hthrows : exists e', mapM parseFromStorageName (List.map StoredAsset.name entries)
                               = inl e').
  { apply (mapM_throws _ _ (StoredAsset.name p) e); [|exact He].
    apply list_elem_of_fmap. eauto. }
  destruct Hthrows as [e' He']. split.
  - destruct (findBestMatchingCandidate_run requestedAsset s all entries Hall Hcat)
      as (s' & Hrun & _).
    exists e'. rewrite Hrun. unfold resolver. now rewrite He'.
  - assert (Hex : exists s', expand s = (inr tt, s')
                             /\ sent (r s') = (sent (r s) ++ [answer NotFound])%list).
    { rewrite expand_unfold. unfold try_catch, expand_try.
      rewrite Hparse, (bind_inr _ _ (entered s) requestedAsset (entered s)) by reflexivity.
      cbv zeta. rewrite Himp, andb_false_r. cbn [negb].
      unfold bind at 1. cbn [r_log modify_r].
      set (s1 := mkState _ (heap (entered s))).
      destruct (findBestMatchingCandidate_run requestedAsset s1 all entries Hall Hcat)
        as (s2 & Hrun & Hext).
      unfold resolver in Hrun. rewrite He' in Hrun. rewrite (bind_inl _ _ _ _ _ Hrun).
      destruct Hext as (_ & _ & _ & Hsent & _).
      destruct (expand_catch_run e' s2) as (s3 & Hend & Hsent3 & _).
      rewrite Hend. exists s3. split; [reflexivity|]. rewrite Hsent3, Hsent. reflexivity. }
    destruct Hex as (s' & -> & Hsent). split; [reflexivity | exact Hsent].
Qed.

(** X6: on a complete URI (precise version and a path) whose name is not a
    minified one, [expand] does not resolve anything: it serves the file
    with status 200 when [serveFiles] is set and the file can be read, and
    answers not found otherwise (also when the read throws); it sets no
    header and allocates no array. *)
Theorem expand_complete_uri s requestedAsset :
  parseFromUrl (uri (r s)) = inr requestedAsset ->
  truthy (path requestedAsset) = true ->
  isVersionPreciseEnough requestedAsset = true ->
  isMinificationRequested (uri (r s)) = false ->
  fst (expand s) = inr tt
  /\ sent (r (snd (expand s)))
     = (sent (r s) ++ [answer (fileOutcome (serveFiles (r s)) (uri (r s)))])%list
  /\ headersOut (r (snd (expand s))) = headersOut (r s)
  /\ heap (snd (expand s)) = heap s.
Proof.
  intros Hparse Hpath Hprec Hmin.
  rewrite (expand_complete_unfold s requestedAsset Hparse Hpath Hprec), Hmin.
  set (s1 := snd (r_log LogLevel (MsgDebug true false true) (entered s))).
  rewrite (try_catch_bind_inr _ _ _ s1 tt s1) by reflexivity.
  destruct (serveFile_caught (uri (r s)) s1) as (s2 & Hrun & Hsent & Hh & Hheap).
  rewrite Hrun. cbn [fst snd]. rewrite Hsent, Hh, Hheap. repeat split.
Qed.

(** X7: on every request that is not for a complete URI with a minified
    name, [expand] returns normally after exactly one terminal call, the
    answer of serve, redirect or not found. *)
Theorem expand_answers_exactly_once s :
  ~ minified (uri (r s)) ->
  fst (expand s) = inr tt
  /\ exists o, sent (r (snd (expand s))) = (sent (r s) ++ [answer o])%list.
Proof.
  intros Hnot. destruct (expand_shape s) as (Hret & [Honce|(Hmf & _)]).
  - split; [exact Hret | exact Honce].
  - contradiction.
Qed.

(** X8: on a complete URI with a minified name whose file can be read and
    is not empty, [expand] serves that file as it is with status 200 and
    sets no header; it then makes the second terminal call of the block on
    [serveFiles]. *)
Theorem expand_minified_file_exists s requestedAsset :
  parseFromUrl (uri (r s)) = inr requestedAsset ->
  truthy (path requestedAsset) = true ->
  isVersionPreciseEnough requestedAsset = true ->
  isMinificationRequested (uri (r s)) = true ->
  truthy (readOrNothing (VOLUME_MOUNT_PATH +:+ uri (r s))) = true ->
  sent (r (snd (expand s)))
  = (sent (r s) ++ [Return 200 (readOrNothing (VOLUME_MOUNT_PATH +:+ uri (r s)));
                    answer (fileOutcome (serveFiles (r s)) (uri (r s)))])%list
  /\ headersOut (r (snd (expand s))) = headersOut (r s).
Proof.
  intros Hparse Hpath Hprec Hmin Hread.
  rewrite (expand_complete_unfold s requestedAsset Hparse Hpath Hprec), Hmin.
  set (s1 := snd (r_log LogLevel (MsgDebug true false true) (entered s))).
  destruct (serveMinified_served (uri (r s)) s1 Hread) as (s2 & Hrun & Hsent & Hh & Hsf & _).
  rewrite (try_catch_bind_inr _ _ _ _ _ _ Hrun).
  destruct (serveFile_caught (uri (r s)) s2) as (s3 & Hrun3 & Hsent3 & Hh3 & _).
  rewrite Hrun3. cbn [snd]. rewrite Hsent3, Hh3, Hsent, Hh, Hsf, <- app_assoc. split; reflexivity.
Qed.

(** X9: on a complete URI with a minified name whose file cannot be read
    (or is empty), while the non-minified source can, [expand] serves the
    minifier's output on that source with status 200, and sets the
    [cache-tag] header to [minified asset] and the [etag] header to the
    entity tag of the minified text. *)
Theorem expand_minifies_source s requestedAsset sourceFilePath source min :
  parseFromUrl (uri (r s)) = inr requestedAsset ->
  truthy (path requestedAsset) = true ->
  isVersionPreciseEnough requestedAsset = true ->
  isMinificationRequested (uri (r s)) = true ->
  truthy (readOrNothing (VOLUME_MOUNT_PATH +:+ uri (r s))) = false ->
  resolveNonMinifiedURI (uri (r s)) = inr sourceFilePath ->
  readFile (VOLUME_MOUNT_PATH +:+ sourceFilePath) = inr source ->
  minifier (uri (r s)) (or_else source "") = inr min ->
  sent (r (snd (expand s)))
  = (sent (r s) ++ [Return 200 (Some min);
                    answer (fileOutcome (serveFiles (r s)) (uri (r s)))])%list
  /\ headersOut (r (snd (expand s)))
     = <["etag" := etag min]> (<["cache-tag" := "minified asset"]> (headersOut (r s))).
Proof.
  intros Hparse Hpath Hprec Hmin Hread Hres Hsrc Hm.
  rewrite (expand_complete_unfold s requestedAsset Hparse Hpath Hprec), Hmin.
  set (s1 := snd (r_log LogLevel (MsgDebug true false true) (entered s))).
  pose proof (serveMinified_minifies (uri (r s)) s1 min Hread) as Hrun.
  cbv zeta in Hrun. rewrite Hres, Hsrc in Hrun.
  destruct (Hrun Hm) as (s2 & Hrun2 & Hsent & Hh & Hsf & _).
  rewrite (try_catch_bind_inr _ _ _ _ _ _ Hrun2).
  destruct (serveFile_caught (uri (r s)) s2) as (s3 & Hrun3 & Hsent3 & Hh3 & _).
  rewrite Hrun3. cbn [snd]. rewrite Hsent3, Hh3, Hsent, Hh, Hsf, <- app_assoc. split; reflexivity.
Qed.

(** X10: on a complete URI with a minified name, when neither the minified
    file nor the non-minified source can be read, [expand] does not answer
    not found first: it serves the minifier's output on the empty text with
    status 200, with the [cache-tag] and [etag] headers. *)
Theorem expand_minifies_nothing s requestedAsset min :
  parseFromUrl (uri (r s)) = inr requestedAsset ->
  truthy (path requestedAsset) = true ->
  isVersionPreciseEnough requestedAsset = true ->
  isMinificationRequested (uri (r s)) = true ->
  truthy (readOrNothing (VOLUME_MOUNT_PATH +:+ uri (r s))) = false ->
  match resolveNonMinifiedURI (uri (r s)) with
  | inr sourceFilePath => exists e, readFile (VOLUME_MOUNT_PATH +:+ sourceFilePath) = inl e
  | inl _ => True
  end ->
  minifier (uri (r s)) "" = inr min ->
  sent (r (snd (expand s)))
  = (sent (r s) ++ [Return 200 (Some min);
                    answer (fileOutcome (serveFiles (r s)) (uri (r s)))])%list
  /\ headersOut (r (snd (expand s)))
     = <["etag" := etag min]> (<["cache-tag" := "minified asset"]> (headersOut (r s))).
Proof.
  intros Hparse Hpath Hprec Hmin Hread Hnone Hm.
  rewrite (expand_complete_unfold s requestedAsset Hparse Hpath Hprec), Hmin.
  set (s1 := snd (r_log LogLevel (MsgDebug true false true) (entered s))).
  pose proof (serveMinified_minifies (uri (r s)) s1 min Hread) as Hrun.
  cbv zeta in Hrun.
  assert (Hfb : match resolveNonMinifiedURI (uri (r s)) with
                | inr sourceFilePath =>
                    match readFile (VOLUME_MOUNT_PATH +:+ sourceFilePath) with
                    | inr source => source
                    | inl _ => readOrNothing (VOLUME_MOUNT_PATH +:+ uri (r s))
                    end
                | inl _ => readOrNothing (VOLUME_MOUNT_PATH +:+ uri (r s))
                end = readOrNothing (VOLUME_MOUNT_PATH +:+ uri (r s))).
  { destruct (resolveNonMinifiedURI (uri (r s))) as [e|f]; [reflexivity|].
    destruct Hnone as [e ->]. reflexivity. }
  rewrite Hfb, (or_else_falsy _ _ Hread) in Hrun.
  destruct (Hrun Hm) as (s2 & Hrun2 & Hsent & Hh & Hsf & _).
  rewrite (try_catch_bind_inr _ _ _ _ _ _ Hrun2).
  destruct (serveFile_caught (uri (r s)) s2) as (s3 & Hrun3 & Hsent3 & Hh3 & _).
  rewrite Hrun3. cbn [snd]. rewrite Hsent3, Hh3, Hsent, Hh, Hsf, <- app_assoc. split; reflexivity.
Qed.

(** *** Headers, and what is kept *)

Lemma stateless_Array_find f l : stateless (Array_find f l).
Proof.
  intros s. unfold Array_find, bind, lift, load, ret.
  destruct (heap s !! l) as [a|]; [|reflexivity].
  destruct (the_stored a); reflexivity.
Qed.

Lemma stateless_computeUriPath requestedAsset candidateAsset :
  stateless (computeUriPath requestedAsset candidateAsset).
Proof.
  intros s. unfold computeUriPath, bind, lift.
  destruct (serializeAssetName candidateAsset) as [e|sn]; [reflexivity|].
  destruct allStoredAssets as [e|all]; [reflexivity|].
  pose proof (stateless_Array_find
                (fun p => String.eqb (StoredAsset.name p) sn) all s) as Hs.
  destruct (Array_find _ all s) as [[e|found] s']; cbn [snd] in Hs; subst s'; [reflexivity|].
  cbv zeta. destruct (negb _); reflexivity.
Qed.

Lemma stateless_assetDefaultPath requestedAsset :
  stateless (assetDefaultPath requestedAsset).
Proof.
  intros s. unfold assetDefaultPath, bind, lift.
  destruct (_ || _); [reflexivity|].
  destruct allStoredAssets as [e|all]; [reflexivity|].
  pose proof (stateless_Array_find
                (fun p => String.eqb (StoredAsset.name p)
                            (name requestedAsset +:+ "@" +:+
                             interpolate (version requestedAsset))) all s) as Hs.
  destruct (Array_find _ all s) as [[e|found] s']; cbn [snd] in Hs; subst s'; reflexivity.
Qed.

(** A path [computeUriPath] returns is empty or starts with a slash. *)
Lemma computeUriPath_slash requestedAsset candidateAsset s p :
  fst (computeUriPath requestedAsset candidateAsset s) = inr p ->
  p = "" \/ exists t, p = "/" +:+ t.
Proof.
  unfold computeUriPath, bind, lift.
  destruct (serializeAssetName candidateAsset) as [e|sn]; [discriminate|].
  destruct allStoredAssets as [e|all]; [discriminate|].
  destruct (Array_find _ all s) as [[e|found] s']; [discriminate|].
  cbv zeta. destruct (negb _); cbn [fst ret]; intros [= <-]; eauto.
Qed.

(** The resolver makes no terminal call and sets no header. *)
Lemma findBestMatchingCandidate_silent requestedAsset s :
  sent (r (snd (findBestMatchingCandidate requestedAsset s))) = sent (r s)
  /\ headersOut (r (snd (findBestMatchingCandidate requestedAsset s))) = headersOut (r s).
Proof.
  destruct (findBestMatchingCandidate_cases requestedAsset s)
    as [(all & entries & Hall & Hcat)|Hsame].
  - destruct (findBestMatchingCandidate_run requestedAsset s all entries Hall Hcat)
      as (s' & Hrun & (_ & _ & Hh & Hsent & _)).
    rewrite Hrun. auto.
  - rewrite Hsame. auto.
Qed.

Lemma redirectOrResolve_headers target s :
  exists s', redirectOrResolve target s = (inr tt, s')
             /\ sent (r s') = (sent (r s) ++ [answer (Redirect target)])%list
             /\ headersOut (r s') = withCors (headersOut (r s)).
Proof.
  unfold redirectOrResolve, answer, withCors.
  destruct (truthy A7_CORS_ALL), (truthy A7_PATH_AUTO_RESOLVE);
    (eexists; split; [reflexivity|]; split; reflexivity).
Qed.

Lemma expand_catch_headers e s :
  exists s', expand_catch e s = (inr tt, s')
             /\ sent (r s') = (sent (r s) ++ [answer NotFound])%list
             /\ headersOut (r s') = headersOut (r s).
Proof. eexists. split; [reflexivity|]. split; reflexivity. Qed.

(** Close a run whose last step [H] is known. *)
Ltac close_run H :=
  let s' := fresh "s" in
  let Hrun := fresh "Hrun" in
  let Hres := fresh "Hres" in
  destruct H as (s' & Hrun & Hres);
  rewrite Hrun; exists s'; split; [reflexivity | exact Hres].

(** X11: on a request that is not for a complete URI, [expand] ends in one
    of two ways: not found, with the response headers as they were; or a
    redirect to a target that starts with a slash, with the headers after
    the CORS policy (the two wildcard headers when [A7_CORS_ALL] is set).
    Not found never carries the CORS headers. *)
Theorem expand_redirects_or_not_found s :
  (forall requestedAsset,
     parseFromUrl (uri (r s)) = inr requestedAsset ->
     truthy (path requestedAsset) && isVersionPreciseEnough requestedAsset = false) ->
  (sent (r (snd (expand s))) = (sent (r s) ++ [answer NotFound])%list
   /\ headersOut (r (snd (expand s))) = headersOut (r s))
  \/ (exists target,
        sent (r (snd (expand s))) = (sent (r s) ++ [answer (Redirect ("/" +:+ target))])%list
        /\ headersOut (r (snd (expand s))) = withCors (headersOut (r s))).
Proof.
  intros Hincomplete.
  assert (Hex : exists s', expand s = (inr tt, s')
            /\ ((sent (r s') = (sent (r s) ++ [answer NotFound])%list
                 /\ headersOut (r s') = headersOut (r s))
                \/ (exists target,
                      sent (r s') = (sent (r s) ++ [answer (Redirect ("/" +:+ target))])%list
                      /\ headersOut (r s') = withCors (headersOut (r s))))).
  2:{ destruct Hex as (s' & -> & H). exact H. }
  rewrite expand_unfold. unfold try_catch, expand_try.
  assert (Hnf : forall e s1,
             sent (r s1) = sent (r s) -> headersOut (r s1) = headersOut (r s) ->
             exists s', expand_catch e s1 = (inr tt, s')
               /\ ((sent (r s') = (sent (r s) ++ [answer NotFound])%list
                    /\ headersOut (r s') = headersOut (r s))
                   \/ (exists target,
                         sent (r s') = (sent (r s) ++ [answer (Redirect ("/" +:+ target))])%list
                         /\ headersOut (r s') = withCors (headersOut (r s))))).
  { intros e s1 Hs Hh. destruct (expand_catch_headers e s1) as (s' & Hrun & Hs' & Hh').
    exists s'. split; [exact Hrun|]. left. now rewrite Hs', Hh', Hs, Hh. }
  assert (Hnot : forall s1,
             sent (r s1) = sent (r s) -> headersOut (r s1) = headersOut (r s) ->
             exists s', handleNotFound s1 = (inr tt, s')
               /\ ((sent (r s') = (sent (r s) ++ [answer NotFound])%list
                    /\ headersOut (r s') = headersOut (r s))
                   \/ (exists target,
                         sent (r s') = (sent (r s) ++ [answer (Redirect ("/" +:+ target))])%list
                         /\ headersOut (r s') = withCors (headersOut (r s))))).
  { intros s1 Hs Hh. destruct (handleNotFound_run s1) as (s' & Hrun & Hs' & Hh' & _).
    exists s'. split; [exact Hrun|]. left. now rewrite Hs', Hh', Hs, Hh. }
  assert (Hred : forall t s1,
             sent (r s1) = sent (r s) -> headersOut (r s1) = headersOut (r s) ->
             exists s', redirectOrResolve ("/" +:+ t) s1 = (inr tt, s')
               /\ ((sent (r s') = (sent (r s) ++ [answer NotFound])%list
                    /\ headersOut (r s') = headersOut (r s))
                   \/ (exists target,
                         sent (r s') = (sent (r s) ++ [answer (Redirect ("/" +:+ target))])%list
                         /\ headersOut (r s') = withCors (headersOut (r s))))).
  { intros t s1 Hs Hh.
    destruct (redirectOrResolve_headers ("/" +:+ t) s1) as (s' & Hrun & Hs' & Hh').
    exists s'. split; [exact Hrun|]. right. exists t. now rewrite Hs', Hh', Hs, Hh. }
  destruct (parseFromUrl (uri (r s))) as [e|requestedAsset] eqn:Hparse.
  { rewrite (bind_inl _ _ (entered s) e (entered s)) by reflexivity.
    close_run (Hnf e (entered s) eq_refl eq_refl). }
  rewrite (bind_inr _ _ (entered s) requestedAsset (entered s)) by reflexivity.
  cbv zeta. pose proof (Hincomplete requestedAsset eq_refl) as Hc. rewrite Hc. cbn [negb].
  unfold bind at 1. cbn [r_log modify_r].
  set (s1 := mkState _ (heap (entered s))).
  assert (Hs1 : sent (r s1) = sent (r s)) by reflexivity.
  assert (Hh1 : headersOut (r s1) = headersOut (r s)) by reflexivity.
  clearbody s1.
  destruct (isVersionPreciseEnough requestedAsset) eqn:Hprec; cbn [negb].
  - rewrite andb_true_r in Hc. rewrite Hc. cbn [negb].
    pose proof (stateless_assetDefaultPath requestedAsset s1) as Hst.
    destruct (assetDefaultPath requestedAsset s1) as [[e|assetPath] s2] eqn:Ha;
      cbn [snd] in Hst; subst s2.
    + rewrite (bind_inl _ _ _ _ _ Ha). close_run (Hnf e s1 Hs1 Hh1).
    + rewrite (bind_inr _ _ _ _ _ Ha).
      destruct (negb (truthy_string assetPath)); [close_run (Hnot s1 Hs1 Hh1)|].
      close_run (Hred (name requestedAsset +:+ "@" +:+ interpolate (version requestedAsset)
                       +:+ "/" +:+ assetPath) s1 Hs1 Hh1).
  - destruct (findBestMatchingCandidate_silent requestedAsset s1) as (Hs2 & Hh2).
    destruct (findBestMatchingCandidate requestedAsset s1) as [[e|candidateAsset] s2] eqn:Hf;
      cbn [snd] in Hs2, Hh2.
    + rewrite (bind_inl _ _ _ _ _ Hf).
      close_run (Hnf e s2 (eq_trans Hs2 Hs1) (eq_trans Hh2 Hh1)).
    + rewrite (bind_inr _ _ _ _ _ Hf).
      pose proof (stateless_computeUriPath requestedAsset candidateAsset s2) as Hst.
      pose proof (computeUriPath_slash requestedAsset candidateAsset s2) as Hslash.
      destruct (computeUriPath requestedAsset candidateAsset s2) as [[e|newPath] s3] eqn:Hcu;
        cbn [snd fst] in Hst, Hslash; subst s3.
      * rewrite (bind_inl _ _ _ _ _ Hcu).
        close_run (Hnf e s2 (eq_trans Hs2 Hs1) (eq_trans Hh2 Hh1)).
      * rewrite (bind_inr _ _ _ _ _ Hcu).
        destruct (Hslash newPath eq_refl) as [->|[t ->]].
        -- rewrite truthy_empty. cbn [negb].
           close_run (Hnot s2 (eq_trans Hs2 Hs1) (eq_trans Hh2 Hh1)).
        -- rewrite truthy_slash. cbn [negb].
           close_run (Hred t s2 (eq_trans Hs2 Hs1) (eq_trans Hh2 Hh1)).
Qed.

Lemma append_assoc (a b c : string) : (a +:+ b) +:+ c = a +:+ (b +:+ c).
Proof.
  induction a as [|x a IH]; [reflexivity|].
  change (String x ((a +:+ b) +:+ c) = String x (a +:+ (b +:+ c))). now rewrite IH.
Qed.

(** X12: computeUriPath and assetDefaultPath build the same target: for a
    candidate that has a name and a version text, and serializes to
    [name@version], the path [computeUriPath] returns for a request without
    a path is the one [expand] builds from [assetDefaultPath] of the
    candidate itself, [/name@version/defaultPath], and it is empty exactly
    when [assetDefaultPath] is. *)
Theorem computeUriPath_agrees_with_assetDefaultPath requestedAsset candidate v s all entries :
  allStoredAssets = inr all ->
  heap s !! all = Some (StoredAssets entries) ->
  truthy (path requestedAsset) = false ->
  truthy_string (name candidate) = true ->
  version candidate = Some v ->
  truthy_string v = true ->
  serializeAssetName (Some candidate) = inr (name candidate +:+ "@" +:+ v) ->
  exists assetPath,
    fst (assetDefaultPath candidate s) = inr assetPath
    /\ fst (computeUriPath requestedAsset (Some candidate) s)
       = inr (if truthy_string assetPath then
                "/" +:+ name candidate +:+ "@" +:+ v +:+ "/" +:+ assetPath
              else "").
Proof.
  intros Hall Hcat Hpath Hname Hv Hvt Hser.
  rewrite (assetDefaultPath_run candidate v s all entries Hname Hv Hvt Hall Hcat).
  rewrite (computeUriPath_run requestedAsset (Some candidate) s all entries Hall Hcat), Hser.
  eexists. split; [reflexivity|]. cbn [fst]. f_equal.
  unfold uriPath, or_else. cbv zeta. rewrite Hpath. cbn [orb].
  destruct (defaultPathOf (name candidate +:+ "@" +:+ v) entries) as [d|]; cbn [truthy];
    [destruct (truthy_string d) eqn:Hd|]; cbn [negb interpolate].
  - rewrite Hd. now rewrite !append_assoc.
  - now rewrite truthy_empty.
  - now rewrite truthy_empty.
Qed.

Create HintDb keeps.

Lemma keeps_bind {A B} (m : M A) (k : A -> M B) :
  keeps m -> (forall x, keeps (k x)) -> keeps (bind m k).
Proof.
  intros Hm Hk s. unfold bind. specialize (Hm s).
  destruct (m s) as [[e|x] s']; cbn [snd] in *; [exact Hm|].
  destruct Hm as (H1 & H2 & H3). destruct (Hk x s') as (K1 & K2 & K3).
  split; [etrans; eassumption|]. split; congruence.
Qed.

Lemma keeps_try_catch {A} (m : M A) (h : exn -> M A) :
  keeps m -> (forall e, keeps (h e)) -> keeps (try_catch m h).
Proof.
  intros Hm Hh s. unfold try_catch. specialize (Hm s).
  destruct (m s) as [[e|x] s']; cbn [snd] in *; [|exact Hm].
  destruct Hm as (H1 & H2 & H3). destruct (Hh e s') as (K1 & K2 & K3).
  split; [etrans; eassumption|]. split; congruence.
Qed.

Lemma keeps_stateless {A} (m : M A) : stateless m -> keeps m.
Proof. intros H s. rewrite H. split; [reflexivity | split; reflexivity]. Qed.

Lemma keeps_modify_r f :
  (forall q, uri (f q) = uri q /\ serveFiles (f q) = serveFiles q) -> keeps (modify_r f).
Proof. intros H s. cbn. destruct (H (r s)). split; [reflexivity | split; assumption]. Qed.

Lemma keeps_log lv m : keeps (r_log lv m).
Proof. apply keeps_modify_r. intros q. split; reflexivity. Qed.

Lemma keeps_setHeader k v : keeps (r_setHeader k v).
Proof. apply keeps_modify_r. intros q. split; reflexivity. Qed.

Lemma keeps_do a : keeps (r_do a).
Proof. apply keeps_modify_r. intros q. split; reflexivity. Qed.

Lemma keeps_lift {A} (v : exn + A) : keeps (lift v).
Proof. intros s. split; [reflexivity | split; reflexivity]. Qed.

Lemma keeps_ret {A} (x : A) : keeps (ret x).
Proof. intros s. split; [reflexivity | split; reflexivity]. Qed.

Lemma keeps_gets {A} (f : State -> A) : keeps (gets f).
Proof. intros s. split; [reflexivity | split; reflexivity]. Qed.

Lemma keeps_findBestMatchingCandidate requestedAsset :
  keeps (findBestMatchingCandidate requestedAsset).
Proof.
  intros s. destruct (findBestMatchingCandidate_cases requestedAsset s)
    as [(all & entries & Hall & Hcat)|Hsame].
  - destruct (findBestMatchingCandidate_run requestedAsset s all entries Hall Hcat)
      as (s' & Hrun & (Hu & Hsf & _ & _ & Hsub)).
    rewrite Hrun. auto.
  - rewrite Hsame. split; [reflexivity | split; reflexivity].
Qed.

#[local] Hint Resolve keeps_log keeps_setHeader keeps_do keeps_lift keeps_ret keeps_gets
  keeps_findBestMatchingCandidate : keeps.

Ltac keeps_steps :=
  repeat first
    [ apply keeps_bind; [|intros ?]
    | apply keeps_try_catch; [|intros ?]
    | solve [auto with keeps]
    | match goal with |- keeps (if ?b then _ else _) => destruct b end ].

Lemma keeps_handleNotFound : keeps handleNotFound.
Proof. unfold handleNotFound, r_internalRedirect. keeps_steps. Qed.

Lemma keeps_redirectOrResolve target : keeps (redirectOrResolve target).
Proof. unfold redirectOrResolve, r_internalRedirect, r_return. keeps_steps. Qed.

Lemma keeps_serveMinified u : keeps (serveMinified u).
Proof. unfold serveMinified, r_return. keeps_steps. Qed.

Lemma keeps_serveFile u : keeps (serveFile u).
Proof.
  unfold serveFile, r_return. keeps_steps. apply keeps_handleNotFound.
Qed.

Lemma keeps_expand_try u : keeps (expand_try u).
Proof.
  unfold expand_try. apply keeps_bind; [auto with keeps|]. intros requestedAsset.
  cbv zeta. apply keeps_bind; [auto with keeps|]. intros _.
  destruct (negb (negb _)).
  - apply keeps_bind; [|intros _; apply keeps_serveFile].
    destruct (isMinificationRequested u); [apply keeps_serveMinified | auto with keeps].
  - destruct (negb (isVersionPreciseEnough requestedAsset)).
    + apply keeps_bind; [auto with keeps|]. intros candidateAsset.
      apply keeps_bind; [apply keeps_stateless, stateless_computeUriPath|]. intros newPath.
      destruct (negb _); [apply keeps_handleNotFound | apply keeps_redirectOrResolve].
    + destruct (negb (truthy (path requestedAsset))); [|apply keeps_handleNotFound].
      apply keeps_bind; [apply keeps_stateless, stateless_assetDefaultPath|]. intros assetPath.
      destruct (negb _); [apply keeps_handleNotFound | apply keeps_redirectOrResolve].
Qed.

(** X13: [expand] changes no array that was in the store, the catalog
    included, on any request: resolution sorts a copy, and nothing else
    writes to the store.  It does not change the request's URI or its
    [serveFiles] variable either. *)
Theorem expand_keeps_store s :
  heap s ⊆ heap (snd (expand s))
  /\ uri (r (snd (expand s))) = uri (r s)
  /\ serveFiles (r (snd (expand s))) = serveFiles (r s).
Proof.
  assert (H : keeps expand).
  { unfold expand. apply keeps_bind; [auto with keeps|]. intros u.
    apply keeps_bind; [auto with keeps|]. intros _.
    apply keeps_try_catch; [apply keeps_expand_try|]. intros e.
    unfold expand_catch. apply keeps_bind; [auto with keeps|]. intros _.
    apply keeps_handleNotFound. }
  apply H.
Qed.

End expand.

End Expand.

(* ===================================================================== *)
(** * The imported classes, from the specification *)
(* ===================================================================== *)

(** [expand.ts] imports its asset classes, the catalog and the file helpers
    from other files of the repository (assets/, datasource/, helpers/).  This module gives
    each of them a definition that follows the specification, so that the
    model of [expand.ts] runs on concrete requests. *)
Module SpecModel.

Import Expand.
#[local] Open Scope string_scope.

(** Modelled from the spec: the class [Asset] (assets/Asset.ts).  An asset
    identifier has a name, up to three version components, each present or
    absent, and an optional path. *)
Record Asset : Type := mkAsset {
  name : string;
  major : option nat;
  minor : option nat;
  patch : option nat;
  path : option string
}.

Definition showNat (n : nat) : string := NilZero.string_of_uint (Nat.to_uint n).

(** Modelled from the spec: the version text of an asset, its present
    components joined by dots ([Asset.version], which expand.ts reads). *)
Definition version (a : Asset) : option string :=
  match major a with
  | None => None
  | Some x =>
      Some (showNat x +:+
            match minor a with
            | None => ""
            | Some y =>
                "." +:+ showNat y +:+
                match patch a with
                | None => ""
                | Some z => "." +:+ showNat z
                end
            end)
  end.

(** [s] up to the first [c], and what follows that [c] (if [c] occurs). *)
Fixpoint splitFirst (c : Ascii.ascii) (s : string) : string * option string :=
  match s with
  | EmptyString => (EmptyString, None)
  | String a s' =>
      if Ascii.eqb a c then (EmptyString, Some s')
      else let (h, t) := splitFirst c s' in (String a h, t)
  end.

(** A version token: a non-negative decimal integer, or absent. *)
Definition parseComponent (tok : string) : option nat :=
  Nat.of_uint <$> NilZero.uint_of_string tok.

(** Modelled from the spec: the version text split on dots; a token that
    is no integer makes its component and all following ones absent. *)
Definition parseVersion (v : option string) : option nat * option nat * option nat :=
  match v with
  | None => (None, None, None)
  | Some v =>
      let (t1, rest1) := splitFirst "."%char v in
      match parseComponent t1 with
      | None => (None, None, None)
      | Some x =>
          match rest1 with
          | None => (Some x, None, None)
          | Some rest1 =>
              let (t2, rest2) := splitFirst "."%char rest1 in
              match parseComponent t2 with
              | None => (Some x, None, None)
              | Some y =>
                  match rest2 with
                  | None => (Some x, Some y, None)
                  | Some rest2 =>
                      let (t3, _) := splitFirst "."%char rest2 in
                      (Some x, Some y, parseComponent t3)
                  end
              end
          end
      end
  end.

(** The segment [name[@version]]. *)
Definition parseSegment (seg : string) (path : option string) : Asset :=
  let (n, v) := splitFirst "@"%char seg in
  let '(x, y, z) := parseVersion v in
  mkAsset n x y z path.

(** Modelled from the spec: [AssetNameParser.parseFromUrl]
    (assets/AssetNameParser.ts), on [/name[@version][/path...]]: one
    leading slash is dropped, the segment up to the next slash is the name
    and version, and the remainder, from that slash on, is the path.  It
    never fails. *)
Definition parseFromUrl (uri : string) : exn + Asset :=
  let body := match uri with
              | String "/"%char rest => rest
              | _ => uri
              end in
  let (seg, rest) := splitFirst "/"%char body in
  inr (parseSegment seg ((fun p => "/" +:+ p) <$> rest)).

(** Modelled from the spec: [AssetNameParser.parseFromStorageName], the
    same splitting on [name@major.minor.patch], without a path. *)
Definition parseFromStorageName (storageName : string) : exn + Asset :=
  inr (parseSegment storageName None).

(** Modelled from the spec: [AssetNameSerializer.serializeAssetName]
    (assets/AssetNameSerializer.ts), [name@major.minor.patch]; it fails on
    an identifier with an absent component, and on undefined. *)
Definition serializeAssetName (a : option Asset) : exn + string :=
  match a with
  | None => inl (TypeError "cannot read properties of undefined")
  | Some a =>
      match major a, minor a, patch a with
      | Some x, Some y, Some z =>
          inr (name a +:+ "@" +:+ showNat x +:+ "." +:+ showNat y +:+ "." +:+ showNat z)
      | _, _, _ => inl (Failure "IncompleteIdentifier")
      end
  end.

(** One component, newest first; an absent one sorts after a present one. *)
Definition compareComponent (x y : option nat) : Z :=
  match x, y with
  | Some x, Some y =>
      match Nat.compare x y with
      | Gt => (-1)%Z
      | Eq => 0%Z
      | Lt => 1%Z
      end
  | Some _, None => (-1)%Z
  | None, Some _ => 1%Z
  | None, None => 0%Z
  end.

(** Modelled from the spec: [AssetComparator.compare]
    (assets/AssetComparator.ts), descending by major, then minor, then
    patch. *)
Definition compare (a b : Asset) : Z :=
  let c := compareComponent (major a) (major b) in
  if negb (c =? 0)%Z then c
  else
    let c := compareComponent (minor a) (minor b) in
    if negb (c =? 0)%Z then c
    else compareComponent (patch a) (patch b).

Definition matchComponent (requested candidate : option nat) : bool :=
  match requested with
  | None => true
  | Some x =>
      match candidate with
      | Some y => Nat.eqb x y
      | None => false
      end
  end.

(** Modelled from the spec: [AssetPredicate.matches]
    (assets/AssetPredicate.ts): every present component of the requested
    version equals the candidate's. *)
Definition matches (requested candidate : Asset) : bool :=
  matchComponent (major requested) (major candidate)
  && matchComponent (minor requested) (minor candidate)
  && matchComponent (patch requested) (patch candidate).

(** Modelled from the spec: [isVersionPreciseEnough] (helpers/Version.ts):
    all three components are present. *)
Definition isVersionPreciseEnough (a : Asset) : bool :=
  match major a, minor a, patch a with
  | Some _, Some _, Some _ => true
  | _, _, _ => false
  end.

(** A request with no version component at all. *)
Definition unconstrained (a : Asset) : Prop :=
  major a = None /\ minor a = None /\ patch a = None.

(** *** A small world to run requests in *)

(** Modelled from the spec: a volume with one script,
    [/bob@1.3.3/dist/index.js], and nothing else ([readFile] of
    helpers/File.ts fails on a missing file). *)
Definition readFile (file : string) : exn + option string :=
  if String.eqb file "/assets/bob@1.3.3/dist/index.js" then inr (Some "let a = 1 ;")
  else inl (Failure "ENOENT").

(** Modelled from the spec: [resolveNonMinifiedURI] (helpers/Minify.ts)
    drops [.min] from the end of the name. *)
Definition resolveNonMinifiedURI (uri : string) : exn + string :=
  if endsWith uri ".min.js" then
    inr (String.substring 0 (String.length uri - 7) uri +:+ ".js")
  else if endsWith uri ".min.mjs" then
    inr (String.substring 0 (String.length uri - 8) uri +:+ ".mjs")
  else if endsWith uri ".min.css" then
    inr (String.substring 0 (String.length uri - 8) uri +:+ ".css")
  else inr uri.

(** Modelled from the spec: [isJsURI] and [isCssURI] (helpers/Minify.ts)
    tell the minifier to use by the name's extension. *)
Definition isJsURI (uri : string) : bool := endsWith uri ".js" || endsWith uri ".mjs".
Definition isCssURI (uri : string) : bool := endsWith uri ".css".

(** Modelled from the spec: the minifiers are text transforms with no
    further contract; here they leave the text as it is. *)
Definition minifyJS (source : string) : exn + string := inr source.
Definition minifyCSS (source : string) : exn + string := inr source.

(** Modelled from the spec: the entity tag of a body (the [etag] package)
    and the mount point of the volume ([VOLUME_MOUNT_PATH] of
    helpers/Env.ts); the specification fixes neither value. *)
Definition etag (body : string) : string :=
  "W/" +:+ JSString.toString (Z.of_nat (String.length body)).
Definition VOLUME_MOUNT_PATH : string := "/assets".

(** The catalog of the specification's scenario. *)
Definition catalog : list StoredAsset.t :=
  [ StoredAsset.mk "bob@1.3.3" (Some "index.css");
    StoredAsset.mk "bob@1.3.4" (Some "index.css");
    StoredAsset.mk "bob@2.0.0" (Some "index.css") ].

(** Modelled from the spec: [allStoredAssets] (datasource/datasource.ts)
    hands out the catalog snapshot; its array sits at reference 1. *)
Definition allStoredAssets : exn + loc := inr 1%positive.

Definition request (uri : string) (serveFiles : option string)
  : NginxHTTPRequest (Asset := Asset) :=
  mkRequest uri serveFiles ∅ [] [].

Definition world (entries : list StoredAsset.t) (uri : string) (serveFiles : option string)
  : State (Asset := Asset) :=
  mkState (request uri serveFiles) {[ 1%positive := StoredAssets entries ]}.

(** [expand] and its parts over these definitions; the two environment
    flags stay arguments. *)
Definition findBestMatchingCandidate :=
  Expand.findBestMatchingCandidate name parseFromStorageName compare matches allStoredAssets.

Definition expand (A7_CORS_ALL A7_PATH_AUTO_RESOLVE : option string) :=
  Expand.expand name version path parseFromUrl parseFromStorageName compare matches
    serializeAssetName isVersionPreciseEnough allStoredAssets readFile resolveNonMinifiedURI
    isJsURI isCssURI minifyJS minifyCSS etag VOLUME_MOUNT_PATH A7_CORS_ALL A7_PATH_AUTO_RESOLVE.

(** What a run of [expand] sent. *)
Definition run (entries : list StoredAsset.t) (uri : string) (serveFiles : option string)
    (cors resolve : option string) : (exn + unit) * list Action :=
  let '(v, s) := expand cors resolve (world entries uri serveFiles) in
  (v, sent (r s)).

(** *** Further worlds *)

(** A volume that also holds a minified script. *)
Definition readFile_with_minified (file : string) : exn + option string :=
  if String.eqb file "/assets/bob@1.3.3/dist/index.min.js" then inr (Some "let a=1;")
  else readFile file.

(** A storage name parser that throws on a name without a version. *)
Definition parseFromStorageName_strict (storageName : string) : exn + Asset :=
  match splitFirst "@"%char storageName with
  | (_, None) => inl (Failure "no version")
  | (_, Some _) => parseFromStorageName storageName
  end.

(** A catalog with a stray entry. *)
Definition catalog_with_stray : list StoredAsset.t :=
  [ StoredAsset.mk "bob@1.3.3" (Some "index.css");
    StoredAsset.mk "lost+found" None ].

Definition bob (x y z : nat) : Asset := mkAsset "bob" (Some x) (Some y) (Some z) None.

(** ** The comparator and the predicate of the specification *)

(** A component as a number: absent is below every present value. *)
Definition rank (x : option nat) : Z :=
  match x with
  | Some x => Z.of_nat x + 1
  | None => 0
  end.

Lemma compareComponent_rank x y :
  compareComponent x y = (- Z.sgn (rank x - rank y))%Z.
Proof.
  destruct x as [x|], y as [y|]; cbn [compareComponent rank].
  - destruct (Nat.compare_spec x y) as [->|H|H].
    + now replace (Z.of_nat y + 1 - (Z.of_nat y + 1))%Z with 0%Z by lia.
    + rewrite Z.sgn_neg by lia. reflexivity.
    + rewrite Z.sgn_pos by lia. reflexivity.
  - rewrite Z.sgn_pos by lia. reflexivity.
  - rewrite Z.sgn_neg by lia. reflexivity.
  - reflexivity.
Qed.

(** [compare a b <= 0], spelled out: [a]'s version is not below [b]'s. *)
Lemma compare_le a b :
  (compare a b <= 0)%Z <->
  (rank (major a) > rank (major b)
   \/ rank (major a) = rank (major b)
      /\ (rank (minor a) > rank (minor b)
          \/ rank (minor a) = rank (minor b) /\ rank (patch a) >= rank (patch b)))%Z.
Proof.
  unfold compare. rewrite !compareComponent_rank.
  destruct (Z.eqb_spec (- Z.sgn (rank (major a) - rank (major b))) 0) as [H1|H1]; cbn [negb].
  - destruct (Z.eqb_spec (- Z.sgn (rank (minor a) - rank (minor b))) 0) as [H2|H2]; cbn [negb].
    + lia.
    + lia.
  - lia.
Qed.

Lemma compare_consistent : consistent compare.
Proof.
  split.
  - intros a b. rewrite !compare_le. lia.
  - intros a b c. rewrite !compare_le. lia.
Qed.

(** A request with no version component accepts every candidate. *)
Lemma matches_unconstrained requested candidate :
  unconstrained requested -> matches requested candidate = true.
Proof. intros (H1 & H2 & H3). unfold matches. now rewrite H1, H2, H3. Qed.

(** A request with a precise version has a version text, and it is not
    empty. *)
Lemma precise_has_version a :
  isVersionPreciseEnough a = true ->
  exists v, version a = Some v /\ truthy_string v = true.
Proof.
  unfold isVersionPreciseEnough, version.
  destruct (major a) as [x|]; [|discriminate].
  destruct (minor a) as [y|]; [|discriminate].
  destruct (patch a) as [z|]; [|discriminate].
  intros _. eexists. split; [reflexivity|].
  unfold showNat, NilZero.string_of_uint.
  destruct (Nat.to_uint x); reflexivity.
Qed.

(** The comparator puts newer versions first. *)
Example sort_newest_first :
  sort compare
    [ mkAsset "bob" (Some 1) (Some 0) (Some 0) None;
      mkAsset "bob" (Some 1) (Some 9) (Some 9) None;
      mkAsset "bob" (Some 0) (Some 9) (Some 9) None;
      mkAsset "bob" (Some 2) (Some 0) (Some 0) None;
      mkAsset "bob" (Some 1) (Some 0) (Some 1) None;
      mkAsset "bob" (Some 1) (Some 9) (Some 0) None ]
  = [ mkAsset "bob" (Some 2) (Some 0) (Some 0) None;
      mkAsset "bob" (Some 1) (Some 9) (Some 9) None;
      mkAsset "bob" (Some 1) (Some 9) (Some 0) None;
      mkAsset "bob" (Some 1) (Some 0) (Some 1) None;
      mkAsset "bob" (Some 1) (Some 0) (Some 0) None;
      mkAsset "bob" (Some 0) (Some 9) (Some 9) None ].
Proof. vm_compute. reflexivity. Qed.

(** ** The scenarios of the specification *)

Example scenario_partial_version :
  run catalog "/bob@1" None None None
  = (inr tt, [Return 302 (Some "/bob@1.3.4/index.css")]).
Proof. vm_compute. reflexivity. Qed.

Example scenario_latest :
  run catalog "/bob" None None None
  = (inr tt, [Return 302 (Some "/bob@2.0.0/index.css")]).
Proof. vm_compute. reflexivity. Qed.

Example scenario_partial_version_with_path :
  run catalog "/bob@1.3/dist/index.js" None None (Some "true")
  = (inr tt, [InternalRedirect "/bob@1.3.4/dist/index.js"]).
Proof. vm_compute. reflexivity. Qed.

Example scenario_complete_uri :
  run catalog "/bob@1.3.3/dist/index.css" None None None
  = (inr tt, [InternalRedirect "/404.html"])
  /\ run catalog "/bob@1.3.3/dist/index.js" (Some "on") None None
     = (inr tt, [Return 200 (Some "let a = 1 ;")]).
Proof. split; vm_compute; reflexivity. Qed.

Example scenario_unknown_name :
  run catalog "/alice@1" None None None = (inr tt, [InternalRedirect "/404.html"])
  /\ run catalog "/alice/index.js" None None None = (inr tt, [InternalRedirect "/404.html"]).
Proof. split; vm_compute; reflexivity. Qed.

Example scenario_no_default_path :
  run [StoredAsset.mk "bob@2.0.0" None] "/bob" None None None
  = (inr tt, [InternalRedirect "/404.html"]).
Proof. vm_compute. reflexivity. Qed.

Example scenario_no_such_major :
  run catalog "/bob@3" None None None = (inr tt, [InternalRedirect "/404.html"]).
Proof. vm_compute. reflexivity. Qed.

(** Exceptions of the collaborators end in not found: here the catalog
    lookup, the URL parser and the storage name parser throw. *)
Example scenario_lookup_throws :
  let '(v, s) :=
    Expand.expand name version path parseFromUrl parseFromStorageName compare matches
      serializeAssetName isVersionPreciseEnough (inl (Failure "catalog")) readFile
      resolveNonMinifiedURI isJsURI isCssURI minifyJS minifyCSS etag VOLUME_MOUNT_PATH
      None None (world catalog "/bob@1" None) in
  (v, sent (r s)) = (inr tt, [InternalRedirect "/404.html"]).
Proof. vm_compute. reflexivity. Qed.

Example scenario_parser_throws :
  let '(v, s) :=
    Expand.expand name version path (fun _ => inl (Failure "parse")) parseFromStorageName
      compare matches serializeAssetName isVersionPreciseEnough allStoredAssets readFile
      resolveNonMinifiedURI isJsURI isCssURI minifyJS minifyCSS etag VOLUME_MOUNT_PATH
      None None (world catalog "/bob@1" None) in
  (v, sent (r s)) = (inr tt, [InternalRedirect "/404.html"]).
Proof. vm_compute. reflexivity. Qed.

Example scenario_storage_name_throws :
  let '(v, s) :=
    Expand.expand name version path parseFromUrl (fun _ => inl (Failure "parse"))
      compare matches serializeAssetName isVersionPreciseEnough allStoredAssets readFile
      resolveNonMinifiedURI isJsURI isCssURI minifyJS minifyCSS etag VOLUME_MOUNT_PATH
      None None (world catalog "/bob@1" None) in
  (v, sent (r s)) = (inr tt, [InternalRedirect "/404.html"]).
Proof. vm_compute. reflexivity. Qed.

(** The catalog array after a resolution, and the array that was sorted. *)
Example scenario_store_after_resolution :
  let s := snd (findBestMatchingCandidate (mkAsset "bob" None None None None)
                  (world catalog "/bob" None)) in
  heap s !! 1%positive = Some (StoredAssets catalog)
  /\ heap s !! 4%positive
     = Some (Assets [mkAsset "bob" (Some 2) (Some 0) (Some 0) None;
                     mkAsset "bob" (Some 1) (Some 3) (Some 4) None;
                     mkAsset "bob" (Some 1) (Some 3) (Some 3) None]).
Proof. split; vm_compute; reflexivity. Qed.

(** ** The theorems at concrete requests *)

Lemma first_candidate_at_bob1 :
  fst (findBestMatchingCandidate (mkAsset "bob" (Some 1) None None None)
         (world catalog "/bob@1" None))
  = inr (Some (mkAsset "bob" (Some 1) (Some 3) (Some 4) None)).
Proof.
  unfold findBestMatchingCandidate.
  rewrite (Expand.findBestMatchingCandidate_first_candidate name parseFromStorageName
             compare matches allStoredAssets (mkAsset "bob" (Some 1) None None None)
             (world catalog "/bob@1" None) 1%positive catalog);
    reflexivity.
Defined.

Lemma unconstrained_newest_at_bob :
  exists newest,
    fst (findBestMatchingCandidate (mkAsset "bob" None None None None)
           (world catalog "/bob" None)) = inr (Some newest)
    /\ newest ∈ [mkAsset "bob" (Some 1) (Some 3) (Some 3) None;
                 mkAsset "bob" (Some 1) (Some 3) (Some 4) None;
                 mkAsset "bob" (Some 2) (Some 0) (Some 0) None]
    /\ forall b, b ∈ [mkAsset "bob" (Some 1) (Some 3) (Some 3) None;
                      mkAsset "bob" (Some 1) (Some 3) (Some 4) None;
                      mkAsset "bob" (Some 2) (Some 0) (Some 0) None] ->
                 (compare newest b <= 0)%Z.
Proof.
  apply (Expand.findBestMatchingCandidate_unconstrained_newest name parseFromStorageName
           compare matches allStoredAssets (mkAsset "bob" None None None None)
           (world catalog "/bob" None) 1%positive catalog
           [mkAsset "bob" (Some 1) (Some 3) (Some 3) None;
            mkAsset "bob" (Some 1) (Some 3) (Some 4) None;
            mkAsset "bob" (Some 2) (Some 0) (Some 0) None]).
  - exact compare_consistent.
  - reflexivity.
  - reflexivity.
  - reflexivity.
  - discriminate.
  - intros c _. apply matches_unconstrained. repeat split.
Defined.

Lemma imprecise_version_at_bob1 :
  fst (expand None None (world catalog "/bob@1" None)) = inr tt
  /\ sent (r (snd (expand None None (world catalog "/bob@1" None))))
     = [Return 302 (Some "/bob@1.3.4/index.css")].
Proof.
  apply (Expand.expand_imprecise_version name version path parseFromUrl parseFromStorageName
           compare matches serializeAssetName isVersionPreciseEnough allStoredAssets readFile
           resolveNonMinifiedURI isJsURI isCssURI minifyJS minifyCSS etag VOLUME_MOUNT_PATH
           None None (world catalog "/bob@1" None)
           (mkAsset "bob" (Some 1) None None None) 1%positive catalog
           [mkAsset "bob" (Some 1) (Some 3) (Some 3) None;
            mkAsset "bob" (Some 1) (Some 3) (Some 4) None;
            mkAsset "bob" (Some 2) (Some 0) (Some 0) None]).
  - reflexivity.
  - reflexivity.
  - reflexivity.
  - reflexivity.
  - reflexivity.
  - eexists. reflexivity.
Defined.

Lemma precise_version_at_bob133 :
  fst (expand None None (world catalog "/bob@1.3.3" None)) = inr tt
  /\ sent (r (snd (expand None None (world catalog "/bob@1.3.3" None))))
     = [Return 302 (Some "/bob@1.3.3/index.css")].
Proof.
  apply (Expand.expand_precise_version_no_path name version path parseFromUrl
           parseFromStorageName compare matches serializeAssetName isVersionPreciseEnough
           allStoredAssets readFile resolveNonMinifiedURI isJsURI isCssURI minifyJS minifyCSS
           etag VOLUME_MOUNT_PATH None None (world catalog "/bob@1.3.3" None)
           (mkAsset "bob" (Some 1) (Some 3) (Some 3) None) "1.3.3" 1%positive catalog);
    reflexivity.
Defined.

Lemma minified_answers_twice_at_bob133 :
  exists body o,
    sent (r (snd (expand None None (world catalog "/bob@1.3.3/dist/index.min.js" None))))
    = [Return 200 body; answer None o].
Proof.
  apply (Expand.expand_minified_answers_twice name version path parseFromUrl
           parseFromStorageName compare matches serializeAssetName isVersionPreciseEnough
           allStoredAssets readFile resolveNonMinifiedURI isJsURI isCssURI minifyJS minifyCSS
           etag VOLUME_MOUNT_PATH None None
           (world catalog "/bob@1.3.3/dist/index.min.js" None)
           (mkAsset "bob" (Some 1) (Some 3) (Some 3) (Some "/dist/index.min.js"))).
  - reflexivity.
  - reflexivity.
  - reflexivity.
  - reflexivity.
  - intros source. eexists. reflexivity.
  - intros source. eexists. reflexivity.
Defined.

(** The two terminal calls of that request. *)
Example scenario_minified_twice :
  run catalog "/bob@1.3.3/dist/index.min.js" None None None
  = (inr tt, [Return 200 (Some "let a = 1 ;"); InternalRedirect "/404.html"])
  /\ run catalog "/bob@1.3.3/dist/index.min.js" (Some "on") None None
     = (inr tt, [Return 200 (Some "let a = 1 ;"); InternalRedirect "/404.html"]).
Proof. split; vm_compute; reflexivity. Qed.

(** ** The further theorems at concrete requests *)

Lemma sound_at_bob1 :
  name (bob 1 3 4) = "bob"
  /\ matches (mkAsset "bob" (Some 1) None None None) (bob 1 3 4) = true
  /\ exists p, p ∈ catalog /\ parseFromStorageName (StoredAsset.name p) = inr (bob 1 3 4).
Proof.
  apply (Expand.findBestMatchingCandidate_sound name parseFromStorageName compare matches
           allStoredAssets (mkAsset "bob" (Some 1) None None None)
           (world catalog "/bob@1" None) 1%positive catalog (bob 1 3 4));
    reflexivity.
Defined.

Lemma none_at_bob3 :
  fst (findBestMatchingCandidate (mkAsset "bob" (Some 3) None None None)
         (world catalog "/bob@3" None)) = inr None
  <-> forall a, a ∈ [bob 1 3 3; bob 1 3 4; bob 2 0 0] -> name a = "bob" ->
                matches (mkAsset "bob" (Some 3) None None None) a = false.
Proof.
  apply (Expand.findBestMatchingCandidate_none name parseFromStorageName compare matches
           allStoredAssets (mkAsset "bob" (Some 3) None None None)
           (world catalog "/bob@3" None) 1%positive catalog [bob 1 3 3; bob 1 3 4; bob 2 0 0]);
    reflexivity.
Defined.

Lemma newest_match_at_bob1 :
  (compare (bob 1 3 4) (bob 1 3 3) <= 0)%Z.
Proof.
  apply (Expand.findBestMatchingCandidate_newest_match name parseFromStorageName compare
           matches allStoredAssets (mkAsset "bob" (Some 1) None None None)
           (world catalog "/bob@1" None) 1%positive catalog [bob 1 3 3; bob 1 3 4; bob 2 0 0]
           (bob 1 3 4) compare_consistent);
    try reflexivity.
  apply list_elem_of_here.
Defined.

Lemma catalog_order_at_bob1 :
  (compare (bob 1 3 4) (bob 1 3 4) <= 0 /\ compare (bob 1 3 4) (bob 1 3 4) <= 0)%Z.
Proof.
  exact (Expand.findBestMatchingCandidate_catalog_order name parseFromStorageName compare
           matches allStoredAssets (mkAsset "bob" (Some 1) None None None)
           (world catalog "/bob@1" None) (world (reverse catalog) "/bob@1" None)
           1%positive catalog (reverse catalog) [bob 1 3 3; bob 1 3 4; bob 2 0 0]
           compare_consistent eq_refl eq_refl eq_refl
           (Permutation_sym (reverse_Permutation catalog)) eq_refl).
Defined.

Lemma unparsable_entry_at_bob1 :
  let expand_strict :=
    Expand.expand name version path parseFromUrl parseFromStorageName_strict compare matches
      serializeAssetName isVersionPreciseEnough allStoredAssets readFile
      resolveNonMinifiedURI isJsURI isCssURI minifyJS minifyCSS etag VOLUME_MOUNT_PATH
      None None in
  (exists e', fst (Expand.findBestMatchingCandidate name parseFromStorageName_strict compare
                     matches allStoredAssets (mkAsset "bob" (Some 1) None None None)
                     (world catalog_with_stray "/bob@1" None)) = inl e')
  /\ fst (expand_strict (world catalog_with_stray "/bob@1" None)) = inr tt
  /\ sent (r (snd (expand_strict (world catalog_with_stray "/bob@1" None))))
     = [InternalRedirect "/404.html"].
Proof.
  apply (Expand.expand_unparsable_entry name version path parseFromUrl
           parseFromStorageName_strict compare matches serializeAssetName
           isVersionPreciseEnough allStoredAssets readFile resolveNonMinifiedURI isJsURI
           isCssURI minifyJS minifyCSS etag VOLUME_MOUNT_PATH None None
           (world catalog_with_stray "/bob@1" None) (mkAsset "bob" (Some 1) None None None)
           1%positive catalog_with_stray (StoredAsset.mk "lost+found" None)
           (Failure "no version")).
  - reflexivity.
  - reflexivity.
  - reflexivity.
  - reflexivity.
  - right. left.
  - reflexivity.
Defined.

Lemma complete_uri_at_index_js :
  fst (expand None None (world catalog "/bob@1.3.3/dist/index.js" (Some "on"))) = inr tt
  /\ sent (r (snd (expand None None (world catalog "/bob@1.3.3/dist/index.js" (Some "on")))))
     = [Return 200 (Some "let a = 1 ;")]
  /\ headersOut (r (snd (expand None None
                           (world catalog "/bob@1.3.3/dist/index.js" (Some "on"))))) = ∅
  /\ heap (snd (expand None None (world catalog "/bob@1.3.3/dist/index.js" (Some "on"))))
     = {[ 1%positive := StoredAssets catalog ]}.
Proof.
  apply (Expand.expand_complete_uri name version path parseFromUrl parseFromStorageName
           compare matches serializeAssetName isVersionPreciseEnough allStoredAssets readFile
           resolveNonMinifiedURI isJsURI isCssURI minifyJS minifyCSS etag VOLUME_MOUNT_PATH
           None None (world catalog "/bob@1.3.3/dist/index.js" (Some "on"))
           (mkAsset "bob" (Some 1) (Some 3) (Some 3) (Some "/dist/index.js")));
    reflexivity.
Defined.

Lemma exactly_once_at_bob1 :
  fst (expand None None (world catalog "/bob@1" None)) = inr tt
  /\ exists o, sent (r (snd (expand None None (world catalog "/bob@1" None))))
               = [answer None o].
Proof.
  apply (Expand.expand_answers_exactly_once name version path parseFromUrl
           parseFromStorageName compare matches serializeAssetName isVersionPreciseEnough
           allStoredAssets readFile resolveNonMinifiedURI isJsURI isCssURI minifyJS minifyCSS
           etag VOLUME_MOUNT_PATH None None (world catalog "/bob@1" None)).
  intros [Hmin _]. discriminate Hmin.
Defined.

Lemma minified_file_exists_at_bob133 :
  let expand2 :=
    Expand.expand name version path parseFromUrl parseFromStorageName compare matches
      serializeAssetName isVersionPreciseEnough allStoredAssets readFile_with_minified
      resolveNonMinifiedURI isJsURI isCssURI minifyJS minifyCSS etag VOLUME_MOUNT_PATH
      None None in
  sent (r (snd (expand2 (world catalog "/bob@1.3.3/dist/index.min.js" (Some "on")))))
  = [Return 200 (Some "let a=1;"); Return 200 (Some "let a=1;")]
  /\ headersOut (r (snd (expand2 (world catalog "/bob@1.3.3/dist/index.min.js" (Some "on")))))
     = ∅.
Proof.
  apply (Expand.expand_minified_file_exists name version path parseFromUrl
           parseFromStorageName compare matches serializeAssetName isVersionPreciseEnough
           allStoredAssets readFile_with_minified resolveNonMinifiedURI isJsURI isCssURI
           minifyJS minifyCSS etag VOLUME_MOUNT_PATH None None
           (world catalog "/bob@1.3.3/dist/index.min.js" (Some "on"))
           (mkAsset "bob" (Some 1) (Some 3) (Some 3) (Some "/dist/index.min.js")));
    reflexivity.
Defined.

Lemma minifies_source_at_bob133 :
  sent (r (snd (expand None None (world catalog "/bob@1.3.3/dist/index.min.js" None))))
  = [Return 200 (Some "let a = 1 ;"); InternalRedirect "/404.html"]
  /\ headersOut (r (snd (expand None None
                           (world catalog "/bob@1.3.3/dist/index.min.js" None))))
     = <["etag" := etag "let a = 1 ;"]> (<["cache-tag" := "minified asset"]> ∅).
Proof.
  apply (Expand.expand_minifies_source name version path parseFromUrl parseFromStorageName
           compare matches serializeAssetName isVersionPreciseEnough allStoredAssets readFile
           resolveNonMinifiedURI isJsURI isCssURI minifyJS minifyCSS etag VOLUME_MOUNT_PATH
           None None (world catalog "/bob@1.3.3/dist/index.min.js" None)
           (mkAsset "bob" (Some 1) (Some 3) (Some 3) (Some "/dist/index.min.js"))
           "/bob@1.3.3/dist/index.js" (Some "let a = 1 ;") "let a = 1 ;");
    reflexivity.
Defined.

Lemma minifies_nothing_at_bob133 :
  sent (r (snd (expand None None (world catalog "/bob@1.3.3/dist/gone.min.css" None))))
  = [Return 200 (Some ""); InternalRedirect "/404.html"]
  /\ headersOut (r (snd (expand None None
                           (world catalog "/bob@1.3.3/dist/gone.min.css" None))))
     = <["etag" := etag ""]> (<["cache-tag" := "minified asset"]> ∅).
Proof.
  apply (Expand.expand_minifies_nothing name version path parseFromUrl parseFromStorageName
           compare matches serializeAssetName isVersionPreciseEnough allStoredAssets readFile
           resolveNonMinifiedURI isJsURI isCssURI minifyJS minifyCSS etag VOLUME_MOUNT_PATH
           None None (world catalog "/bob@1.3.3/dist/gone.min.css" None)
           (mkAsset "bob" (Some 1) (Some 3) (Some 3) (Some "/dist/gone.min.css")) "").
  - reflexivity.
  - reflexivity.
  - reflexivity.
  - reflexivity.
  - reflexivity.
  - eexists. reflexivity.
  - reflexivity.
Defined.

Lemma redirects_or_not_found_at_bob1 :
  (sent (r (snd (expand (Some "1") None (world catalog "/bob@1" None))))
   = [InternalRedirect "/404.html"]
   /\ headersOut (r (snd (expand (Some "1") None (world catalog "/bob@1" None)))) = ∅)
  \/ (exists target,
        sent (r (snd (expand (Some "1") None (world catalog "/bob@1" None))))
        = [Return 302 (Some ("/" +:+ target))]
        /\ headersOut (r (snd (expand (Some "1") None (world catalog "/bob@1" None))))
           = <["access-control-allow-headers" := "*"]>
               (<["access-control-allow-origin" := "*"]> ∅)).
Proof.
  apply (Expand.expand_redirects_or_not_found name version path parseFromUrl
           parseFromStorageName compare matches serializeAssetName isVersionPreciseEnough
           allStoredAssets readFile resolveNonMinifiedURI isJsURI isCssURI minifyJS minifyCSS
           etag VOLUME_MOUNT_PATH (Some "1") None (world catalog "/bob@1" None)).
  intros requestedAsset [= <-]. reflexivity.
Defined.

Lemma paths_agree_at_bob134 :
  exists assetPath,
    fst (Expand.assetDefaultPath name version allStoredAssets (bob 1 3 4)
           (world catalog "/bob@1" None)) = inr assetPath
    /\ fst (Expand.computeUriPath path serializeAssetName allStoredAssets
              (mkAsset "bob" (Some 1) None None None) (Some (bob 1 3 4))
              (world catalog "/bob@1" None))
       = inr (if truthy_string assetPath then "/bob@1.3.4/" +:+ assetPath else "").
Proof.
  apply (Expand.computeUriPath_agrees_with_assetDefaultPath name version path
           serializeAssetName allStoredAssets (mkAsset "bob" (Some 1) None None None)
           (bob 1 3 4) "1.3.4" (world catalog "/bob@1" None) 1%positive catalog);
    reflexivity.
Defined.

End SpecModel.
